(** * Verification of the card creator (src/src/App.tsx)

    A shallow embedding of the pure and stateful parts of [App.tsx]: the two
    URL regular expressions and [RegExp.prototype.exec], [arrayChunks], the
    override handler, [getPlaylist] (pagination, override index, merge) and
    the page/row/cell tree handed to the PDF renderer. *)

From Stdlib Require Import NArith Ascii String.
From stdpp Require Import base option list gmap.

Local Open Scope nat_scope.

(** ** JavaScript strings

    A JavaScript string is a sequence of UTF-16 code units.  Code units are
    kept as [N]; [lit] turns an ASCII literal of the source into its code
    units. *)

Abbreviation jsstring := (list N).

Definition lit (s : string) : jsstring := N_of_ascii <$> list_ascii_of_string s.

(** ECMAScript LineTerminator: LF, CR, LS (U+2028), PS (U+2029). *)
Definition isLineTerminator (c : N) : bool :=
  (c =? 10)%N || (c =? 13)%N || (c =? 8232)%N || (c =? 8233)%N.

(** ** Regular expressions

    The fragment of ECMAScript patterns used by [playlistRegex] and
    [trackUrlRegex], with the backtracking matcher of the language
    specification written in continuation-passing style. *)

Module RegExp.

Inductive ClassAtom :=
| ClassChar (a : ascii)          (* a single character, as the final [-] *)
| ClassRange (lo hi : ascii).    (* [lo-hi] *)

Inductive CharSet :=
| AnyChar                        (* [.] without the s flag *)
| CharClass (atoms : list ClassAtom).

Inductive Pattern :=
| Empty
| Char (a : ascii)               (* a pattern character, escaped or not *)
| Cat (r1 r2 : Pattern)
| Disj (r1 r2 : Pattern)         (* r1|r2 *)
| Group (n : nat) (r : Pattern)  (* the n-th capturing parenthesis *)
| Star (cs : CharSet)            (* greedy cs* *)
| Plus (cs : CharSet)            (* greedy cs+ *)
| AssertStart                    (* ^ *)
| AssertEnd.                     (* $ *)

Fixpoint Literal (s : string) : Pattern :=
  match s with
  | EmptyString => Empty
  | String a s' => Cat (Char a) (Literal s')
  end.

Definition atomMatches (c : N) (a : ClassAtom) : bool :=
  match a with
  | ClassChar x => (c =? N_of_ascii x)%N
  | ClassRange lo hi => (N_of_ascii lo <=? c)%N && (c <=? N_of_ascii hi)%N
  end.

Definition inSet (cs : CharSet) (c : N) : bool :=
  match cs with
  | AnyChar => negb (isLineTerminator c)
  | CharClass atoms => existsb (atomMatches c) atoms
  end.

(** The matcher state is the input split at [endIndex]: [before] holds
    [Input[0 .. endIndex)] with the nearest code unit first, [after] holds
    [Input[endIndex ..)]. *)
Record MatchState := mkState {
  before : jsstring;
  after : jsstring;
  captures : gmap nat jsstring
}.

Definition endIndex (st : MatchState) : nat := length (before st).

Definition Continuation := MatchState → option MatchState.

Definition orElse (a b : option MatchState) : option MatchState :=
  match a with Some r => Some r | None => b end.

(** Greedy repetition of a one-character matcher: take one more code unit
    when it is in the set and the rest of the pattern then succeeds,
    otherwise go on with the rest of the pattern from here. *)
Fixpoint repeatMatcher (cs : CharSet) (k : Continuation)
    (bef : jsstring) (caps : gmap nat jsstring) (aft : jsstring) : option MatchState :=
  match aft with
  | c :: aft' =>
      if inSet cs c
      then orElse (repeatMatcher cs k (c :: bef) caps aft') (k (mkState bef aft caps))
      else k (mkState bef aft caps)
  | [] => k (mkState bef aft caps)
  end.

Definition setCapture (n : nat) (start : MatchState) (st : MatchState) : MatchState :=
  mkState (before st) (after st)
    (<[n := take (endIndex st - endIndex start) (after start)]> (captures st)).

Fixpoint matcher (multiline : bool) (r : Pattern) (k : Continuation)
    (st : MatchState) : option MatchState :=
  match r with
  | Empty => k st
  | Char a =>
      match after st with
      | c :: aft' =>
          if (c =? N_of_ascii a)%N
          then k (mkState (c :: before st) aft' (captures st)) else None
      | [] => None
      end
  | Cat r1 r2 => matcher multiline r1 (matcher multiline r2 k) st
  | Disj r1 r2 => orElse (matcher multiline r1 k st) (matcher multiline r2 k st)
  | Group n r' => matcher multiline r' (λ st', k (setCapture n st st')) st
  | Star cs => repeatMatcher cs k (before st) (captures st) (after st)
  | Plus cs =>
      match after st with
      | c :: aft' =>
          if inSet cs c
          then repeatMatcher cs k (c :: before st) (captures st) aft' else None
      | [] => None
      end
  | AssertStart =>
      match before st with
      | [] => k st
      | c :: _ => if multiline && isLineTerminator c then k st else None
      end
  | AssertEnd =>
      match after st with
      | [] => k st
      | c :: _ => if multiline && isLineTerminator c then k st else None
      end
  end.

(** A regular expression object: the pattern and its flags.  [lastIndex] is
    the object's one mutable property and is threaded by [exec]. *)
Record t := mkRegExp {
  source : Pattern;
  global : bool;
  multiline : bool
}.

(** The array returned by a successful [exec]: [m !! 0] is the whole match,
    [m !! n] the n-th capture. *)
Abbreviation MatchArray := (gmap nat jsstring).

(** Try the pattern at [endIndex], then at every later index. *)
Fixpoint search (R : t) (bef : jsstring) (aft : jsstring) : option MatchState :=
  let start := mkState bef aft ∅ in
  match matcher (multiline R) (source R) Some start with
  | Some st => Some (setCapture 0 start st)
  | None =>
      match aft with
      | [] => None
      | c :: aft' => search R (c :: bef) aft'
      end
  end.

(** [RegExp.prototype.exec]: result and new value of [lastIndex].  Without
    the g flag [lastIndex] is read as 0 and left alone; with it the search
    starts at [lastIndex], a success stores the end of the match and a
    failure stores 0. *)
Definition exec (R : t) (lastIndex : nat) (S : jsstring) : option MatchArray * nat :=
  let from := if global R then lastIndex else 0 in
  if length S <? from then (None, if global R then 0 else lastIndex)
  else
    match search R (rev (take from S)) (drop from S) with
    | Some st => (Some (captures st), if global R then endIndex st else lastIndex)
    | None => (None, if global R then 0 else lastIndex)
    end.

End RegExp.

Import RegExp.

(** [const playlistRegex = /^https:\/\/open\.spotify\.com\/playlist\/([a-zA-Z0-9-]+).*$/gm] *)
Definition idClass : CharSet :=
  CharClass [ClassRange "a" "z"; ClassRange "A" "Z"; ClassRange "0" "9"; ClassChar "-"].

Definition playlistRegex : RegExp.t :=
  mkRegExp
    (Cat AssertStart
      (Cat (Literal "https://open.spotify.com/playlist/")
        (Cat (Group 1 (Plus idClass))
          (Cat (Star AnyChar) AssertEnd))))
    true true.

(** [const trackUrlRegex = /^(https:\/\/open\.spotify\.com\/(episode|track)\/[a-zA-Z0-9-]+).*$/] *)
Definition trackUrlRegex : RegExp.t :=
  mkRegExp
    (Cat AssertStart
      (Cat (Group 1
             (Cat (Literal "https://open.spotify.com/")
               (Cat (Group 2 (Disj (Literal "episode") (Literal "track")))
                 (Cat (Char "/") (Plus idClass)))))
        (Cat (Star AnyChar) AssertEnd)))
    false false.

(** ** Data model *)

(** Truthiness of an optional string property: absent ([undefined]) and the
    empty string are falsy. *)
Definition truthy (v : option jsstring) : bool :=
  match v with
  | Some (_ :: _) => true
  | _ => false
  end.

Module OverrideItem.
(** [type OverrideItem]; [date], [artist] and [name] may be missing from
    the JSON object, which reads as [undefined]. *)
Record t := mk {
  link : jsstring;
  date : option jsstring;
  artist : option jsstring;
  name : option jsstring
}.
End OverrideItem.

Module Artist.
(** An entry of [track.artists]: its [name] and its other own properties
    in order (the field projection of the request asks for [name] only). *)
Record t := mk {
  name : jsstring;
  rest : list (jsstring * jsstring)
}.
End Artist.

Module Track.
Record t := mk {
  id : jsstring;
  name : jsstring;
  artists : list Artist.t;
  release_date : jsstring;        (* album.release_date *)
  type : jsstring;
  spotify : jsstring              (* external_urls.spotify *)
}.
End Track.

Module PlaylistedTrack.
Record t := mk {
  added_at : jsstring;
  track : Track.t
}.
End PlaylistedTrack.

(** One page returned by [sdk.playlists.getPlaylistItems]. *)
Module Page.
Record t := mk {
  items : list PlaylistedTrack.t;
  limit : Z;
  next : option jsstring          (* [None] is [null] *)
}.
End Page.

(** The arguments of one call of [sdk.playlists.getPlaylistItems]. *)
Module Request.
Record t := mk {
  playlist_id : jsstring;
  market : jsstring;
  fields : jsstring;
  limit : Z;
  offset : Z
}.
End Request.

(** ** arrayChunks *)

Section ArrayChunks.
Context {A : Type}.

(** [array.slice(begin, end)] for [0 <= begin <= end]. *)
Definition slice (array : list A) (begin end_ : nat) : list A :=
  take (end_ - begin) (drop begin array).

(** [Math.ceil(a / b)] for [b > 0]; the quotient of two array-sized
    integers is far enough from the next integer for the floating-point
    division not to change the ceiling. *)
Definition ceilDiv (a b : nat) : nat :=
  a / b + (if a mod b =? 0 then 0 else 1).

(** [Array(n)] throws a RangeError when [n] is [Infinity] or [NaN], which
    is what a chunk size of 0 gives: [None]. *)
Definition arrayChunks (array : list A) (chunkSize : nat) : option (list (list A)) :=
  if chunkSize =? 0 then None
  else Some
    ((λ begin, slice array begin (begin + chunkSize)) <$>
      ((λ index, index * chunkSize) <$>
        seq 0 (ceilDiv (length array) chunkSize))).
End ArrayChunks.

(** ** Override index and merge (second half of getPlaylist) *)

(** The property key under which an override item is stored:
    [match[1]] when [trackUrlRegex.exec(item.link)] matches, [item.link]
    otherwise.  [trackUrlRegex] has no g flag, so its [lastIndex] stays 0. *)
Definition overrideKey (item : OverrideItem.t) : jsstring :=
  match (exec trackUrlRegex 0 (OverrideItem.link item)).1 with
  | None => OverrideItem.link item
  | Some match_ =>
      match match_ !! 1 with
      | Some s => s
      | None => lit "undefined"
      end
  end.

(** [let overrides : Overrides = {}] filled by the first for-in loop: the
    items the assignments [overrides[key] = item] have stored, by key.  An
    assignment creates or overwrites an own property, except under the key
    [__proto__], where it makes the item the object's prototype; reading
    [overrides["__proto__"]] then gives that item back, so the map holds it
    under that key too.  What a read finds beyond this map is in
    [getProperty]. *)
Definition buildOverrides (overrideJson : list OverrideItem.t) : gmap jsstring OverrideItem.t :=
  foldl (λ overrides item, <[overrideKey item := item]> overrides) ∅ overrideJson.

(** [[{...track.artists[0], "name": override.artist}]] *)
Definition overrideArtists (artists : list Artist.t) (artist : jsstring) : list Artist.t :=
  [Artist.mk artist (match artists !! 0 with Some a => Artist.rest a | None => [] end)].

(** The body of [if (override) { ... }]: three independent assignments,
    each guarded by the truthiness of the override's field. *)
Definition applyOverride (override : OverrideItem.t) (track : Track.t) : Track.t :=
  let name :=
    if truthy (OverrideItem.name override)
    then default [] (OverrideItem.name override) else Track.name track in
  let artists :=
    if truthy (OverrideItem.artist override)
    then overrideArtists (Track.artists track) (default [] (OverrideItem.artist override))
    else Track.artists track in
  let release_date :=
    if truthy (OverrideItem.date override)
    then default [] (OverrideItem.date override) else Track.release_date track in
  Track.mk (Track.id track) name artists release_date (Track.type track) (Track.spotify track).

(** The function-valued properties every object literal inherits from
    [Object.prototype]. *)
Definition objectPrototypeFunctions : list jsstring :=
  [lit "constructor"; lit "hasOwnProperty"; lit "isPrototypeOf";
   lit "propertyIsEnumerable"; lit "toLocaleString"; lit "toString";
   lit "valueOf"; lit "__defineGetter__"; lit "__defineSetter__";
   lit "__lookupGetter__"; lit "__lookupSetter__"].

(** The [name] property of the function found under [key]:
    [Object.prototype.constructor] is [Object], the others are named as
    their keys. *)
Definition inheritedFunctionName (key : jsstring) : jsstring :=
  if decide (key = lit "constructor") then lit "Object" else key.

(** What [overrides[key]] evaluates to, as far as the merge can tell. *)
Inductive Property :=
| StoredItem (override : OverrideItem.t)   (* an item the first loop stored *)
| InheritedFunction (name : jsstring)      (* a function of [Object.prototype] *)
| NoOverride.
    (* [undefined], or an inherited value without [name], [artist] and
       [date]: [Object.prototype] itself under [__proto__], or a string
       field of an item that was made the prototype *)

(** [overrides[key]]: the stored item if there is one, otherwise what the
    prototype chain of the object literal gives. *)
Definition getProperty (overrides : gmap jsstring OverrideItem.t) (key : jsstring)
    : Property :=
  match overrides !! key with
  | Some override => StoredItem override
  | None =>
      if decide (key ∈ objectPrototypeFunctions)
      then InheritedFunction (inheritedFunctionName key)
      else NoOverride
  end.

(** One iteration of the second for-in loop.  An inherited function is
    truthy and has a non-empty [name] and no [artist] or [date], so it
    renames the track. *)
Definition mergeItem (overrides : gmap jsstring OverrideItem.t)
    (item : PlaylistedTrack.t) : PlaylistedTrack.t :=
  let track := PlaylistedTrack.track item in
  match getProperty overrides (Track.spotify track) with
  | StoredItem override =>
      PlaylistedTrack.mk (PlaylistedTrack.added_at item) (applyOverride override track)
  | InheritedFunction name =>
      PlaylistedTrack.mk (PlaylistedTrack.added_at item)
        (Track.mk (Track.id track) name (Track.artists track)
           (Track.release_date track) (Track.type track) (Track.spotify track))
  | NoOverride => item
  end.

Definition applyOverrides (overrides : gmap jsstring OverrideItem.t)
    (items : list PlaylistedTrack.t) : list PlaylistedTrack.t :=
  mergeItem overrides <$> items.

(** ** Pagination (first half of getPlaylist) *)

Definition market : jsstring := lit "DE".
Definition fields : jsstring :=
  lit "offset,limit,next,items(track(id,name,artists(name),album(release_date),type,external_urls),added_at)".

(** The do-while loop.  [responses] are the pages the API answers with, in
    the order the requests are awaited; [None] means the loop is still
    waiting for an answer when they run out.  Offsets and limits are
    integers: as long as they stay safe integers ([exactOffsets] below),
    the number addition of [offset += result.limit] is the integer sum. *)
Fixpoint fetchPages (playlist : jsstring) (responses : list Page.t)
    (items : list PlaylistedTrack.t) (offset : Z) (requests : list Request.t)
    : option (list PlaylistedTrack.t * list Request.t) :=
  match responses with
  | [] => None
  | result :: responses' =>
      let requests := requests ++ [Request.mk playlist market fields 50 offset] in
      let items := items ++ Page.items result in
      let offset := (offset + Page.limit result)%Z in
      match Page.next result with
      | Some _ => fetchPages playlist responses' items offset requests
      | None => Some (items, requests)
      end
  end.

(** ** Application state and handlers *)

(** The exceptions the modelled code can throw. *)
Inductive Exception := TypeError.

Section App.
(** What [JSON.parse] returns is typed [any]; [JSON_parse] is the built-in
    ([None] when it throws a SyntaxError) and [overrideItems] reads a
    parsed value at its declared type [OverrideItem[]], giving the elements
    [overrideJson[index]] in the order [for (var index in overrideJson)]
    visits them, or [None] when reading [item.link] throws a TypeError
    because an element is [null].  [emptyString] is the initial [""] of the
    ref. *)
Variable JSValue : Type.
Variable JSON_parse : jsstring → option JSValue.
Variable overrideItems : JSValue → option (list OverrideItem.t).
Variable emptyString : JSValue.

(** The [useState] cells and refs of [App], the [lastIndex] of the
    module-level [playlistRegex] object, and the exceptions that left a
    handler uncaught (the click handler drops getPlaylist's promise, so a
    throw inside it is an unhandled rejection), oldest first. *)
Record AppState := mkApp {
  url : jsstring;
  playlistItems : option (list PlaylistedTrack.t);
  name : jsstring;
  codeType : jsstring;
  showAdvancedOptions : bool;
  overrideJsonErrorMessage : jsstring;
  overrideJsonRef : option JSValue;       (* [current]: [None] is [null] *)
  overrideText : jsstring;
  playlistRegex_lastIndex : nat;
  unhandledRejections : list Exception
}.

Definition initialState : AppState :=
  mkApp [] None [] (lit "qr") false [] (Some emptyString) [] 0 [].

Definition setUrl (v : jsstring) (st : AppState) : AppState :=
  mkApp v (playlistItems st) (name st) (codeType st) (showAdvancedOptions st)
    (overrideJsonErrorMessage st) (overrideJsonRef st) (overrideText st)
    (playlistRegex_lastIndex st) (unhandledRejections st).

Definition setPlaylistItems (v : list PlaylistedTrack.t) (st : AppState) : AppState :=
  mkApp (url st) (Some v) (name st) (codeType st) (showAdvancedOptions st)
    (overrideJsonErrorMessage st) (overrideJsonRef st) (overrideText st)
    (playlistRegex_lastIndex st) (unhandledRejections st).

Definition setName (v : jsstring) (st : AppState) : AppState :=
  mkApp (url st) (playlistItems st) v (codeType st) (showAdvancedOptions st)
    (overrideJsonErrorMessage st) (overrideJsonRef st) (overrideText st)
    (playlistRegex_lastIndex st) (unhandledRejections st).

Definition setCodeType (v : jsstring) (st : AppState) : AppState :=
  mkApp (url st) (playlistItems st) (name st) v (showAdvancedOptions st)
    (overrideJsonErrorMessage st) (overrideJsonRef st) (overrideText st)
    (playlistRegex_lastIndex st) (unhandledRejections st).

Definition setShowAdvancedOptions (v : bool) (st : AppState) : AppState :=
  mkApp (url st) (playlistItems st) (name st) (codeType st) v
    (overrideJsonErrorMessage st) (overrideJsonRef st) (overrideText st)
    (playlistRegex_lastIndex st) (unhandledRejections st).

Definition setOverrideJsonErrorMessage (v : jsstring) (st : AppState) : AppState :=
  mkApp (url st) (playlistItems st) (name st) (codeType st) (showAdvancedOptions st)
    v (overrideJsonRef st) (overrideText st) (playlistRegex_lastIndex st)
    (unhandledRejections st).

Definition setOverrideJsonRef (v : option JSValue) (st : AppState) : AppState :=
  mkApp (url st) (playlistItems st) (name st) (codeType st) (showAdvancedOptions st)
    (overrideJsonErrorMessage st) v (overrideText st) (playlistRegex_lastIndex st)
    (unhandledRejections st).

Definition setOverrideText (v : jsstring) (st : AppState) : AppState :=
  mkApp (url st) (playlistItems st) (name st) (codeType st) (showAdvancedOptions st)
    (overrideJsonErrorMessage st) (overrideJsonRef st) v (playlistRegex_lastIndex st)
    (unhandledRejections st).

Definition setLastIndex (v : nat) (st : AppState) : AppState :=
  mkApp (url st) (playlistItems st) (name st) (codeType st) (showAdvancedOptions st)
    (overrideJsonErrorMessage st) (overrideJsonRef st) (overrideText st) v
    (unhandledRejections st).

Definition reject (e : Exception) (st : AppState) : AppState :=
  mkApp (url st) (playlistItems st) (name st) (codeType st) (showAdvancedOptions st)
    (overrideJsonErrorMessage st) (overrideJsonRef st) (overrideText st)
    (playlistRegex_lastIndex st) (unhandledRejections st ++ [e]).

(** [handleOverrideChange]: the try block parses only when the ref is not
    null, stores the value and clears the message; the catch block sets
    the message; the text is stored in both cases. *)
Definition handleOverrideChange (input : jsstring) (st : AppState) : AppState :=
  let st :=
    match overrideJsonRef st with
    | Some _ =>
        match JSON_parse input with
        | Some v => setOverrideJsonErrorMessage [] (setOverrideJsonRef (Some v) st)
        | None => setOverrideJsonErrorMessage (lit "Invalid JSON!") st
        end
    | None => setOverrideJsonErrorMessage [] st
    end in
  setOverrideText input st.

(** [match[n]], converted to a string where the source uses it as one. *)
Definition capture (m : MatchArray) (n : nat) : jsstring :=
  match m !! n with
  | Some s => s
  | None => lit "undefined"
  end.

(** The items the first for-in loop of getPlaylist visits: those of the
    ref's value, none for a null ref; [None] when the loop throws. *)
Definition readOverrideJson (st : AppState) : option (list OverrideItem.t) :=
  match overrideJsonRef st with
  | Some value => overrideItems value
  | None => Some []
  end.

(** [getPlaylist], run against the pages the API answers with: the state
    it leaves and the requests issued, or [None] while it still awaits a
    page.  When the first for-in loop throws, the requests have been made,
    [setPlaylistItems] is not reached and the rejection is recorded. *)
Definition getPlaylist (responses : list Page.t) (st : AppState)
    : option (AppState * list Request.t) :=
  let '(match_, lastIndex) := exec playlistRegex (playlistRegex_lastIndex st) (url st) in
  let st := setLastIndex lastIndex st in
  match match_ with
  | None => Some (st, [])
  | Some m =>
      match fetchPages (capture m 1) responses [] 0%Z [] with
      | None => None
      | Some (items, requests) =>
          match readOverrideJson st with
          | None => Some (reject TypeError st, requests)
          | Some overrideJson =>
              let overrides := buildOverrides overrideJson in
              Some (setPlaylistItems (applyOverrides overrides items) st, requests)
          end
      end
  end.

(** What the user and the API can do to the application. *)
Inductive Event :=
| ChangeUrl (v : jsstring)
| ClickSetName (inputValue : jsstring)
| ChangeCodeType (v : jsstring)
| ToggleAdvancedOptions
| ChangeOverride (input : jsstring)
| ClickLoadPlaylist (responses : list Page.t).

Definition step (e : Event) (st : AppState) : AppState :=
  match e with
  | ChangeUrl v => setUrl v st
  | ClickSetName v => setName v st
  | ChangeCodeType v => setCodeType v st
  | ToggleAdvancedOptions => setShowAdvancedOptions (negb (showAdvancedOptions st)) st
  | ChangeOverride input => handleOverrideChange input st
  | ClickLoadPlaylist responses =>
      match getPlaylist responses st with
      | Some (st', _) => st'
      | None => setLastIndex (exec playlistRegex (playlistRegex_lastIndex st) (url st)).2 st
      end
  end.

Definition run (events : list Event) : AppState :=
  foldl (λ st e, step e st) initialState events.
End App.

Arguments mkApp {JSValue}.
Arguments url {JSValue}.
Arguments playlistItems {JSValue}.
Arguments name {JSValue}.
Arguments codeType {JSValue}.
Arguments showAdvancedOptions {JSValue}.
Arguments overrideJsonErrorMessage {JSValue}.
Arguments overrideJsonRef {JSValue}.
Arguments overrideText {JSValue}.
Arguments playlistRegex_lastIndex {JSValue}.
Arguments unhandledRejections {JSValue}.
Arguments reject {JSValue}.
Arguments readOverrideJson {JSValue}.
Arguments setUrl {JSValue}.
Arguments setPlaylistItems {JSValue}.
Arguments setName {JSValue}.
Arguments setCodeType {JSValue}.
Arguments setShowAdvancedOptions {JSValue}.
Arguments setOverrideJsonErrorMessage {JSValue}.
Arguments setOverrideJsonRef {JSValue}.
Arguments setOverrideText {JSValue}.
Arguments setLastIndex {JSValue}.
Arguments handleOverrideChange {JSValue}.
Arguments getPlaylist {JSValue}.
Arguments initialState {JSValue}.
Arguments step {JSValue}.
Arguments run {JSValue}.

(** ** The document tree *)

(** The [src] of an [Image]: the promise returned by the call
    [QRCode.toDataURL(data, {errorCorrectionLevel})], kept as the call and
    its arguments since the encoder is a library, or a URL. *)
Inductive ImageSrc :=
| QRCode_toDataURL (data : jsstring) (errorCorrectionLevel : jsstring)
| ImageUrl (src : jsstring).

Inductive Element :=
| Text (content : jsstring)
| Image (src : ImageSrc).

Inductive FlexDirection := row | row_reverse.

(** The cell [View] of a card, the [View] of a row of cards and a page.
    The crop-mark views carry no data and are left out. *)
Record CardView := mkCard { key : jsstring; children : list Element }.
Record RowView := mkRow { flexDirection : FlexDirection; cards : list CardView }.
Record PDFPage := mkPage { rows : list RowView }.

(** Left-to-right order in which a flex row lays out its children. *)
Definition visualOrder (r : RowView) : list CardView :=
  match flexDirection r with
  | row => cards r
  | row_reverse => reverse (cards r)
  end.

(** [parts.join(sep)] *)
Fixpoint join (sep : jsstring) (parts : list jsstring) : jsstring :=
  match parts with
  | [] => []
  | [x] => x
  | x :: parts' => x ++ sep ++ join sep parts'
  end.

Definition generateSessionPDFQrCode (data : jsstring) : ImageSrc :=
  QRCode_toDataURL data (lit "H").

Section Layout.
(** [dayjs(release_date).format('YYYY')], a call into the dayjs library. *)
Variable formatYear : jsstring → jsstring.
Variable name : jsstring.
Variable codeType : jsstring.

Definition frontCard (item : PlaylistedTrack.t) : CardView :=
  let track := PlaylistedTrack.track item in
  mkCard (Track.id track)
    ([Text (Track.name track);
      Text (formatYear (Track.release_date track));
      Text (join (lit ", ") (Artist.name <$> Track.artists track))]
     ++ (if truthy (Some name) then [Text name] else [])).

Definition backCard (item : PlaylistedTrack.t) : CardView :=
  let track := PlaylistedTrack.track item in
  mkCard (Track.id track)
    [Image
      (if decide (codeType = lit "qr")
       then generateSessionPDFQrCode (lit "spotify:track:" ++ Track.id track)
       else ImageUrl
         (lit "https://scannables.scdn.co/uri/plain/jpeg/FFFFFF/black/320/spotify:track:"
            ++ Track.id track))].

Definition frontPage (rowChunks : list (list PlaylistedTrack.t)) : PDFPage :=
  mkPage ((λ rowChunk, mkRow row (frontCard <$> rowChunk)) <$> rowChunks).

Definition backPage (rowChunks : list (list PlaylistedTrack.t)) : PDFPage :=
  mkPage ((λ rowChunk, mkRow row_reverse (backCard <$> rowChunk)) <$> rowChunks).

(** The fragment of two pages built for one page chunk. *)
Definition pagePair (pageChunks : list PlaylistedTrack.t) : option (list PDFPage) :=
  rowChunks ← arrayChunks pageChunks 3;
  Some [frontPage rowChunks; backPage rowChunks].

(** The children of [<Document>], rendered when [playlistItems] is not
    null. *)
Definition Document (playlistItems : list PlaylistedTrack.t) : option (list PDFPage) :=
  pages ← arrayChunks playlistItems 12;
  pairs ← mapM pagePair pages;
  Some (concat pairs).
End Layout.

(** ** Shapes of URLs, as the specification words them *)

Definition isIdChar (c : N) : bool := inSet idClass c.
Definition notLineTerminator (c : N) : bool := negb (isLineTerminator c).

(** [link] is [https://open.spotify.com/(episode|track)/<id>] followed by
    [tail], where [<id>] is the whole run of identifier characters and the
    tail stays on one line. *)
Record TrackLinkShape (link kind id tail : jsstring) : Prop := {
  shape_link : link = lit "https://open.spotify.com/" ++ kind ++ lit "/" ++ id ++ tail;
  shape_kind : kind = lit "episode" ∨ kind = lit "track";
  shape_id_nonempty : id ≠ [];
  shape_id : forallb isIdChar id = true;
  shape_id_whole : ∀ c, head tail = Some c → isIdChar c = false;
  shape_tail : forallb notLineTerminator tail = true
}.

(** ** Sample data used by the examples below *)

Definition sampleTrack : Track.t :=
  Track.mk (lit "ABC123") (lit "Song - Remastered 2011")
    [Artist.mk (lit "First") [(lit "id", lit "a1")]; Artist.mk (lit "Second") []]
    (lit "2011-03-01") (lit "track") (lit "https://open.spotify.com/track/ABC123").

Definition sampleItem : PlaylistedTrack.t :=
  PlaylistedTrack.mk (lit "2024-01-01T00:00:00Z") sampleTrack.

Definition dateOnlyOverride : OverrideItem.t :=
  OverrideItem.mk (lit "https://open.spotify.com/track/ABC123?si=xyz")
    (Some (lit "1975")) None (Some []).

Definition artistOverride : OverrideItem.t :=
  OverrideItem.mk (lit "https://open.spotify.com/track/ABC123")
    None (Some (lit "Band")) None.

Definition otherOverride : OverrideItem.t :=
  OverrideItem.mk (lit "https://open.spotify.com/track/zzz") None None None.

Definition samplePage1 : Page.t :=
  Page.mk [sampleItem; sampleItem] 50 (Some (lit "https://api.spotify.com/next")).

Definition samplePage2 : Page.t :=
  Page.mk [sampleItem] 50 None.

(** A parser that accepts the empty array only, enough to run the
    handlers. *)
Definition sampleParse (input : jsstring) : option (list OverrideItem.t) :=
  if decide (input = lit "[]") then Some [] else None.

Definition sampleState : AppState (list OverrideItem.t) :=
  setUrl (lit "https://open.spotify.com/playlist/abc")
    (@initialState (list OverrideItem.t) []).

(** The first four code units, as [format('YYYY')] gives for the ISO dates
    of the samples. *)
Definition sampleFormatYear (release_date : jsstring) : jsstring :=
  take 4 release_date.

(** ** Auxiliary definitions for the statements *)

(** The pages' limits are non-negative integers whose sum is at most
    2^53: every offset the loop computes from them is a safe integer and
    [offset += result.limit] adds exactly. *)
Definition exactOffsets (pages : list Page.t) : Prop :=
  Forall (λ p, (0 ≤ Page.limit p)%Z) pages
  ∧ (foldr Z.add 0 (Page.limit <$> pages) ≤ 2 ^ 53)%Z.

(** The requests a run over [pages] issues, starting at [offset]. *)
Fixpoint requestsFrom (playlist : jsstring) (offset : Z) (pages : list Page.t)
    : list Request.t :=
  match pages with
  | [] => []
  | p :: pages' =>
      Request.mk playlist market fields 50 offset
      :: requestsFrom playlist (offset + Page.limit p)%Z pages'
  end.

(** [item.track.id] *)
Definition trackId (item : PlaylistedTrack.t) : jsstring :=
  Track.id (PlaylistedTrack.track item).

(** [pre] ends a line: the pattern's [^] holds right after it. *)
Definition endsLine (pre : jsstring) : Prop :=
  pre = [] ∨ ∃ pre' c, pre = pre' ++ [c] ∧ isLineTerminator c = true.

(** Some line of [url] starts with
    [https://open.spotify.com/playlist/<id>]. *)
Definition PlaylistUrlShape (url : jsstring) : Prop :=
  ∃ pre id tail,
    url = pre ++ lit "https://open.spotify.com/playlist/" ++ id ++ tail
    ∧ endsLine pre ∧ id ≠ [] ∧ forallb isIdChar id = true.

(** ** The container start-up script (docker-assets/99-replace-spotify-vars.sh) *)

Module ReplaceSpotifyVars.

(** The two environment variables the script reads; [None] is unset. *)
Record Env := mkEnv {
  SPOTIFY_CLIENT_ID : option string;
  SPOTIFY_REDIRECT_URI : option string
}.

(** [[ -z "${VAR}" ]]: true for an unset and for an empty variable. *)
Definition isZero (v : option string) : bool :=
  match v with
  | None => true
  | Some EmptyString => true
  | Some _ => false
  end.

(** ["${VAR}"] *)
Definition expand (v : option string) : string := default EmptyString v.

Section Script.
(** The built assets, and [sed -i expr /usr/share/nginx/html/assets/index*.js]
    as a function from the expression and the assets to its exit status
    and the assets it leaves. *)
Variable Files : Type.
Variable sed_i : string → Files → nat * Files.

(** What a run leaves: exit status, lines written to standard output, the
    assets, and the sed expressions that were run, in order. *)
Record Outcome := mkOutcome {
  status : nat;
  stdout : list string;
  files : Files;
  sedRuns : list string
}.

Definition script (env : Env) (fs : Files) : Outcome :=
  if isZero (SPOTIFY_CLIENT_ID env)
  then mkOutcome 1 ["ERROR: SPOTIFY_CLIENT_ID not set"%string] fs []
  else if isZero (SPOTIFY_REDIRECT_URI env)
  then mkOutcome 1 ["ERROR: SPOTIFY_REDIRECT_URI not set"%string] fs []
  else
    let e1 := String.append "s,REPLACEME_VITE_SPOTIFY_CLIENT_ID,"
                (String.append (expand (SPOTIFY_CLIENT_ID env)) ",") in
    let e2 := String.append "s,REPLACEME_VITE_SPOTIFY_REDIRECT_URI,"
                (String.append (expand (SPOTIFY_REDIRECT_URI env)) ",") in
    let '(_, fs1) := sed_i e1 fs in
    let '(status2, fs2) := sed_i e2 fs1 in
    mkOutcome status2 [] fs2 [e1; e2].
End Script.

End ReplaceSpotifyVars.

(** * Properties *)

(** ** The matcher *)


Lemma matcher_Literal ml s k bef tl caps :
  matcher ml (Literal s) k (mkState bef (lit s ++ tl) caps)
  = k (mkState (rev (lit s) ++ bef) tl caps).
Proof.
  revert bef. induction s as [|a s IH]; intros bef; [reflexivity|].
  change (lit (String a s)) with (N_of_ascii a :: lit s).
  cbn [matcher Literal after before captures app].
  rewrite N.eqb_refl, IH. cbn [rev]. by rewrite <- app_assoc.
Qed.

Lemma matcher_Literal_inv ml s k st r :
  matcher ml (Literal s) k st = Some r →
  ∃ tl, after st = lit s ++ tl
        ∧ k (mkState (rev (lit s) ++ before st) tl (captures st)) = Some r.
Proof.
  revert st. induction s as [|a s IH]; intros [bef aft caps] H.
  - exists aft. done.
  - cbn [matcher Literal after before captures] in H.
    destruct aft as [|c aft]; [done|].
    destruct (N.eqb_spec c (N_of_ascii a)) as [->|]; [|done].
    apply IH in H as (tl & Haft & Hk). cbn in Haft. subst aft.
    exists tl. split; [done|].
    change (lit (String a s)) with (N_of_ascii a :: lit s).
    cbn [rev]. by rewrite <- app_assoc.
Qed.

(** A successful repetition took some run of code units of the set and
    the rest of the pattern succeeded after it. *)
Lemma repeatMatcher_inv cs k bef caps aft r :
  repeatMatcher cs k bef caps aft = Some r →
  ∃ run tl, aft = run ++ tl ∧ forallb (inSet cs) run = true
            ∧ k (mkState (rev run ++ bef) tl caps) = Some r.
Proof.
  revert bef. induction aft as [|c aft IH]; intros bef H; cbn in H.
  - by exists [], [].
  - destruct (inSet cs c) eqn:Hc; [|by exists [], (c :: aft)].
    destruct (repeatMatcher cs k (c :: bef) caps aft) as [r'|] eqn:Hrec.
    + cbn in H. simplify_eq.
      apply IH in Hrec as (run & tl & -> & Hrun & Hk).
      exists (c :: run), tl. cbn. by rewrite Hc, Hrun, <- app_assoc.
    + by exists [], (c :: aft).
Qed.

(** The repetition is greedy: when the rest of the pattern succeeds after
    the longest run, that is the result. *)
Lemma repeatMatcher_greedy cs k bef caps run tl r :
  forallb (inSet cs) run = true →
  (∀ c, head tl = Some c → inSet cs c = false) →
  k (mkState (rev run ++ bef) tl caps) = Some r →
  repeatMatcher cs k bef caps (run ++ tl) = Some r.
Proof.
  revert bef. induction run as [|c run IH]; intros bef Hrun Htl Hk; cbn in *.
  - destruct tl as [|c tl]; [done|]. cbn. by rewrite (Htl c).
  - apply andb_prop in Hrun as [-> Hrun].
    rewrite (IH (c :: bef)); [done..|]. by rewrite <- app_assoc in Hk.
Qed.

Lemma setCapture_substring n bef m tl caps caps' :
  setCapture n (mkState bef (m ++ tl) caps) (mkState (rev m ++ bef) tl caps')
  = mkState (rev m ++ bef) tl (<[n := m]> caps').
Proof.
  unfold setCapture, endIndex. cbn. rewrite length_app, length_rev.
  replace (length m + length bef - length bef) with (length m) by lia.
  by rewrite take_app_length.
Qed.

(** [.*$] without the m flag succeeds exactly on input without a line
    terminator up to its end. *)
Lemma dotStarEnd_match bef tl caps :
  forallb notLineTerminator tl = true →
  matcher false (Cat (Star AnyChar) AssertEnd) Some (mkState bef tl caps)
  = Some (mkState (rev tl ++ bef) [] caps).
Proof.
  intros H. cbn [matcher before after captures].
  rewrite <- (app_nil_r tl) at 1.
  by apply repeatMatcher_greedy.
Qed.

Lemma dotStarEnd_inv st r :
  matcher false (Cat (Star AnyChar) AssertEnd) Some st = Some r →
  forallb notLineTerminator (after st) = true
  ∧ r = mkState (rev (after st) ++ before st) [] (captures st).
Proof.
  cbn [matcher]. intros H.
  apply repeatMatcher_inv in H as (run & tl & -> & Hrun & Hk).
  cbn in Hk. destruct tl; [|done]. rewrite app_nil_r. by simplify_eq.
Qed.

Lemma setCapture_eq n bef aft caps bef' tl caps' m :
  aft = m ++ tl → bef' = rev m ++ bef →
  setCapture n (mkState bef aft caps) (mkState bef' tl caps')
  = mkState bef' tl (<[n := m]> caps').
Proof. intros -> ->. apply setCapture_substring. Qed.

(** Any list splits into its longest prefix satisfying [p] and the rest. *)
Lemma longest_run (p q : N → bool) (l : jsstring) :
  forallb q l = true →
  ∃ run tl, l = run ++ tl ∧ forallb p run = true
            ∧ (∀ c, head tl = Some c → p c = false)
            ∧ forallb q tl = true.
Proof.
  induction l as [|c l IH]; intros Hq.
  - by exists [], [].
  - cbn in Hq. apply andb_prop in Hq as [Hc Hq].
    destruct (p c) eqn:Hp.
    + destruct (IH Hq) as (run & tl & -> & ? & ? & ?).
      exists (c :: run), tl. cbn. by rewrite Hp.
    + exists [], (c :: l). cbn. rewrite Hc, Hq.
      split_and!; [done..| |done]. intros ? [= <-]. done.
Qed.

Lemma isIdChar_notLineTerminator c : isIdChar c = true → notLineTerminator c = true.
Proof.
  unfold isIdChar, notLineTerminator, isLineTerminator. cbn.
  rewrite !orb_true_iff, !andb_true_iff, !N.leb_le, !N.eqb_eq.
  intros H. rewrite negb_true_iff, !orb_false_iff, !N.eqb_neq. lia.
Qed.

(** Unfolding equations of [matcher], one per construct. *)
Lemma matcher_Cat ml r1 r2 k st :
  matcher ml (Cat r1 r2) k st = matcher ml r1 (matcher ml r2 k) st.
Proof. reflexivity. Qed.

Lemma matcher_Disj ml r1 r2 k st :
  matcher ml (Disj r1 r2) k st = orElse (matcher ml r1 k st) (matcher ml r2 k st).
Proof. reflexivity. Qed.

Lemma matcher_Group ml n r k st :
  matcher ml (Group n r) k st = matcher ml r (λ st', k (setCapture n st st')) st.
Proof. reflexivity. Qed.

Lemma matcher_Char ml a k bef tl caps :
  matcher ml (Char a) k (mkState bef (N_of_ascii a :: tl) caps)
  = k (mkState (N_of_ascii a :: bef) tl caps).
Proof. cbn [matcher after before captures]. by rewrite N.eqb_refl. Qed.

Lemma matcher_Plus ml cs k bef c tl caps :
  inSet cs c = true →
  matcher ml (Plus cs) k (mkState bef (c :: tl) caps)
  = repeatMatcher cs k (c :: bef) caps tl.
Proof. intros H. cbn [matcher after before captures]. by rewrite H. Qed.

Lemma matcher_Char_inv ml a k st r :
  matcher ml (Char a) k st = Some r →
  ∃ tl, after st = N_of_ascii a :: tl
        ∧ k (mkState (N_of_ascii a :: before st) tl (captures st)) = Some r.
Proof.
  cbn [matcher]. destruct (after st) as [|c tl]; [done|].
  destruct (N.eqb_spec c (N_of_ascii a)) as [->|]; [|done]. eauto.
Qed.

Lemma matcher_Plus_inv ml cs k st r :
  matcher ml (Plus cs) k st = Some r →
  ∃ c tl, after st = c :: tl ∧ inSet cs c = true
          ∧ repeatMatcher cs k (c :: before st) (captures st) tl = Some r.
Proof.
  cbn [matcher]. destruct (after st) as [|c tl]; [done|].
  destruct (inSet cs c) eqn:Hc; [|done]. eauto.
Qed.

Lemma matcher_AssertStart_0 ml k aft caps :
  matcher ml AssertStart k (mkState [] aft caps) = k (mkState [] aft caps).
Proof. reflexivity. Qed.

(** ** trackUrlRegex *)

Lemma episode_not_track (k : Continuation) bef tl caps :
  matcher false (Literal "episode") k (mkState bef (lit "track" ++ tl) caps) = None.
Proof. reflexivity. Qed.

Lemma track_not_episode (k : Continuation) bef tl caps :
  matcher false (Literal "track") k (mkState bef (lit "episode" ++ tl) caps) = None.
Proof. reflexivity. Qed.

Lemma orElse_None_r x : orElse x None = x.
Proof. by destruct x. Qed.

(** [(episode|track)] on input that starts with one of the two words. *)
Lemma matcher_kind k bef kind tl caps :
  kind = lit "episode" ∨ kind = lit "track" →
  matcher false (Disj (Literal "episode") (Literal "track")) k
    (mkState bef (kind ++ tl) caps)
  = k (mkState (rev kind ++ bef) tl caps).
Proof.
  intros [-> | ->]; rewrite matcher_Disj.
  - by rewrite track_not_episode, orElse_None_r, matcher_Literal.
  - by rewrite episode_not_track, matcher_Literal.
Qed.

Lemma matcher_kind_inv k st r :
  matcher false (Disj (Literal "episode") (Literal "track")) k st = Some r →
  ∃ kind tl, (kind = lit "episode" ∨ kind = lit "track")
             ∧ after st = kind ++ tl
             ∧ k (mkState (rev kind ++ before st) tl (captures st)) = Some r.
Proof.
  rewrite matcher_Disj. intros H.
  destruct (matcher false (Literal "episode") k st) as [r'|] eqn:He.
  - cbn [orElse] in H. simplify_eq.
    apply matcher_Literal_inv in He as (tl & ? & ?). eauto 6.
  - cbn [orElse] in H. apply matcher_Literal_inv in H as (tl & ? & ?). eauto 6.
Qed.

Lemma trackUrlRegex_matcher_shape link kind id tail :
  TrackLinkShape link kind id tail →
  ∃ bef, matcher false (source trackUrlRegex) Some (mkState [] link ∅)
         = Some (mkState bef []
             (<[1 := lit "https://open.spotify.com/" ++ kind ++ lit "/" ++ id]>
               (<[2 := kind]> ∅))).
Proof.
  intros [-> Hkind Hne Hid Hwhole Htail].
  destruct id as [|c id]; [done|].
  cbn [forallb] in Hid. apply andb_prop in Hid as [Hc Hid].
  eexists. unfold trackUrlRegex, source.
  rewrite matcher_Cat, matcher_AssertStart_0, matcher_Cat, matcher_Group,
    matcher_Cat, matcher_Literal, matcher_Cat, matcher_Group,
    matcher_kind by done.
  erewrite setCapture_eq by reflexivity.
  change (lit "/" ++ (c :: id) ++ tail) with (N_of_ascii "/" :: c :: id ++ tail).
  rewrite matcher_Cat, matcher_Char, matcher_Plus by exact Hc.
  erewrite repeatMatcher_greedy; [reflexivity|exact Hid|exact Hwhole|].
  erewrite (setCapture_eq 1 _ _ _ _ _ _
    (lit "https://open.spotify.com/" ++ kind ++ lit "/" ++ c :: id)).
  - apply dotStarEnd_match, Htail.
  - by rewrite <- !app_assoc.
  - rewrite !rev_app_distr. cbn [rev lit]. by rewrite <- !app_assoc.
Qed.

Lemma trackUrlRegex_matcher_inv link r :
  matcher false (source trackUrlRegex) Some (mkState [] link ∅) = Some r →
  ∃ kind id tail, TrackLinkShape link kind id tail.
Proof.
  unfold trackUrlRegex, source.
  rewrite matcher_Cat, matcher_AssertStart_0, matcher_Cat, matcher_Group, matcher_Cat.
  intros H.
  apply matcher_Literal_inv in H as (tl1 & Hlink & H). cbn [after before captures] in *.
  rewrite matcher_Cat, matcher_Group in H.
  apply matcher_kind_inv in H as (kind & tl2 & Hkind & Htl1 & H).
  cbn [after before captures] in H, Htl1. subst tl1.
  rewrite matcher_Cat in H.
  apply matcher_Char_inv in H as (tl3 & Htl2 & H).
  apply matcher_Plus_inv in H as (c & tl & Htl3 & Hc & H).
  unfold setCapture in Htl2, Htl3. cbn [after] in Htl2, Htl3. subst tl2 tl3.
  apply repeatMatcher_inv in H as (run & tl4 & -> & Hrun & H).
  apply dotStarEnd_inv in H as [Htl4 _].
  unfold setCapture in Htl4. cbn [after] in Htl4.
  destruct (longest_run isIdChar notLineTerminator tl4 Htl4)
    as (run' & tail & -> & Hrun' & Hwhole & Htail).
  exists kind, (c :: run ++ run'), tail. split; try done.
  - rewrite Hlink. change (lit "/") with [N_of_ascii "/"].
    cbn [app]. by rewrite <- !app_assoc.
  - cbn [forallb]. rewrite forallb_app.
    change (forallb isIdChar run) with (forallb (inSet idClass) run).
    unfold isIdChar at 1. by rewrite Hc, Hrun, Hrun'.
Qed.

Lemma search_unfold R bef aft :
  search R bef aft
  = match matcher (multiline R) (source R) Some (mkState bef aft ∅) with
    | Some st => Some (setCapture 0 (mkState bef aft ∅) st)
    | None =>
        match aft with
        | [] => None
        | c :: aft' => search R (c :: bef) aft'
        end
    end.
Proof. by destruct aft. Qed.

Lemma trackUrlRegex_matcher_later k c bef aft caps :
  matcher false (source trackUrlRegex) k (mkState (c :: bef) aft caps) = None.
Proof. reflexivity. Qed.

Lemma trackUrlRegex_search_later c bef aft :
  search trackUrlRegex (c :: bef) aft = None.
Proof.
  revert c bef. induction aft as [|c' aft IH]; intros c bef;
    rewrite search_unfold; change (multiline trackUrlRegex) with false;
    rewrite trackUrlRegex_matcher_later; [done|apply IH].
Qed.

(** [trackUrlRegex.exec(link)] is decided by one match attempt at index 0. *)
Lemma trackUrlRegex_exec link :
  (exec trackUrlRegex 0 link).1
  = (λ st, captures (setCapture 0 (mkState [] link ∅) st))
      <$> matcher false (source trackUrlRegex) Some (mkState [] link ∅).
Proof.
  unfold exec. change (global trackUrlRegex) with false. cbv iota.
  change (length link <? 0) with false. cbv iota.
  change (rev (take 0 link)) with (@nil N). change (drop 0 link) with link.
  rewrite search_unfold. change (multiline trackUrlRegex) with false.
  destruct (matcher false _ Some _) as [st|]; [done|].
  destruct link as [|c link]; [done|].
  by rewrite trackUrlRegex_search_later.
Qed.

(** ** Override key derivation *)

Lemma overrideKey_shape item kind id tail :
  TrackLinkShape (OverrideItem.link item) kind id tail →
  overrideKey item = lit "https://open.spotify.com/" ++ kind ++ lit "/" ++ id.
Proof.
  intros Hshape. unfold overrideKey. rewrite trackUrlRegex_exec.
  destruct (trackUrlRegex_matcher_shape _ _ _ _ Hshape) as [bef ->].
  cbn [fmap option_fmap option_map setCapture captures].
  by rewrite lookup_insert_ne, lookup_insert_eq.
Qed.

Lemma overrideKey_no_shape item :
  (∀ kind id tail, ¬ TrackLinkShape (OverrideItem.link item) kind id tail) →
  overrideKey item = OverrideItem.link item.
Proof.
  intros Hno. unfold overrideKey. rewrite trackUrlRegex_exec.
  destruct (matcher false _ Some _) as [r|] eqn:Hm; [|done].
  apply trackUrlRegex_matcher_inv in Hm as (kind & id & tail & Hshape).
  by destruct (Hno kind id tail).
Qed.

(** C1: the lookup key of an override item is the matched prefix
    [https://open.spotify.com/(episode|track)/<id>] when its link has that
    shape (whatever follows the identifier on the line is dropped), and the
    link itself otherwise; the two links of the specification give the keys
    it names. *)
Theorem overrideKey_derivation :
  (∀ item kind id tail,
      TrackLinkShape (OverrideItem.link item) kind id tail →
      overrideKey item = lit "https://open.spotify.com/" ++ kind ++ lit "/" ++ id)
  ∧ (∀ item,
      (∀ kind id tail, ¬ TrackLinkShape (OverrideItem.link item) kind id tail) →
      overrideKey item = OverrideItem.link item)
  ∧ (∀ date artist name,
      overrideKey
        (OverrideItem.mk (lit "https://open.spotify.com/track/ABC123?si=xyz") date artist name)
      = lit "https://open.spotify.com/track/ABC123")
  ∧ (∀ date artist name,
      overrideKey
        (OverrideItem.mk (lit "https://open.spotify.com/track/ABC123") date artist name)
      = lit "https://open.spotify.com/track/ABC123").
Proof.
  split_and!.
  - apply overrideKey_shape.
  - apply overrideKey_no_shape.
  - intros. vm_compute. reflexivity.
  - intros. vm_compute. reflexivity.
Qed.

Lemma overrideKey_derivation_witness :
  overrideKey (OverrideItem.mk (lit "https://open.spotify.com/episode/x-9/more?si=1") None None None)
  = lit "https://open.spotify.com/episode/x-9"
  ∧ overrideKey (OverrideItem.mk (lit "spotify:track:ABC123") None None None)
    = lit "spotify:track:ABC123".
Proof.
  split.
  - apply (proj1 overrideKey_derivation
      (OverrideItem.mk (lit "https://open.spotify.com/episode/x-9/more?si=1") None None None)
      (lit "episode") (lit "x-9") (lit "/more?si=1")).
    split.
    + reflexivity.
    + left. reflexivity.
    + discriminate.
    + reflexivity.
    + intros c [= <-]. reflexivity.
    + reflexivity.
  - apply (proj1 (proj2 overrideKey_derivation)
      (OverrideItem.mk (lit "spotify:track:ABC123") None None None)).
    intros kind id tail [H _ _ _ _ _]. vm_compute in H. discriminate H.
Defined.

(** ** The override index *)

Lemma buildOverrides_snoc overrideJson item :
  buildOverrides (overrideJson ++ [item])
  = <[overrideKey item := item]> (buildOverrides overrideJson).
Proof. unfold buildOverrides. by rewrite foldl_app. Qed.

(** The index maps a key to the last item of the list that derives it. *)
Lemma buildOverrides_lookup overrideJson (k : jsstring) :
  buildOverrides overrideJson !! k
  = last (filter (λ item, overrideKey item = k) overrideJson).
Proof.
  induction overrideJson as [|item overrideJson IH] using rev_ind; [done|].
  rewrite buildOverrides_snoc, filter_app.
  destruct (decide (overrideKey item = k)) as [Hk|Hk].
  - rewrite Hk, lookup_insert_eq, filter_cons_True, filter_nil by done.
    by rewrite last_snoc.
  - rewrite lookup_insert_ne, filter_cons_False, filter_nil, app_nil_r by done.
    done.
Qed.

(** C7: the override index has no key twice, and a key derived by several
    items of the override list is mapped to the one that comes last. *)
Theorem overrides_last_write_wins (overrideJson : list OverrideItem.t) :
  NoDup (map_to_list (buildOverrides overrideJson)).*1
  ∧ (∀ earlier item later,
      overrideJson = earlier ++ item :: later →
      Forall (λ other, overrideKey other ≠ overrideKey item) later →
      buildOverrides overrideJson !! overrideKey item = Some item).
Proof.
  split; [apply NoDup_fst_map_to_list|].
  intros earlier item later -> Hlater.
  rewrite buildOverrides_lookup, filter_app, filter_cons_True by done.
  replace (filter _ later) with (@nil OverrideItem.t).
  - by rewrite last_snoc.
  - symmetry. induction Hlater as [|other later Hother _ IH]; [done|].
    by rewrite filter_cons_False.
Qed.

Lemma overrides_last_write_wins_witness :
  buildOverrides [dateOnlyOverride; artistOverride; otherOverride]
    !! lit "https://open.spotify.com/track/ABC123"
  = Some artistOverride.
Proof.
  apply (proj2 (overrides_last_write_wins [dateOnlyOverride; artistOverride; otherOverride])
           [dateOnlyOverride] artistOverride [otherOverride]).
  - reflexivity.
  - constructor; [|constructor]. vm_compute. discriminate.
Defined.

(** ** The merge *)

Lemma applyOverrides_lookup overrides items i item :
  items !! i = Some item →
  applyOverrides overrides items !! i = Some (mergeItem overrides item).
Proof. intros H. unfold applyOverrides. by rewrite list_lookup_fmap, H. Qed.

Lemma truthy_true v : truthy v = true → ∃ c s, v = Some (c :: s).
Proof. destruct v as [[|c s]|]; [done| |done]. eauto. Qed.

(** C2: for a fetched track whose canonical URL is in the override index,
    name, artist and release date are replaced one by one, each only when
    the override's field is non-empty; the other data of the entry stay as
    fetched.  An override with only a date changes only the release date,
    and an override without any non-empty field leaves the entry as it
    was. *)
Theorem merge_replaces_nonempty_fields
    (overrides : gmap jsstring OverrideItem.t)
    (items : list PlaylistedTrack.t) (i : nat)
    (item : PlaylistedTrack.t) (override : OverrideItem.t) :
  items !! i = Some item →
  overrides !! Track.spotify (PlaylistedTrack.track item) = Some override →
  ∃ item',
    applyOverrides overrides items !! i = Some item'
    ∧ let t := PlaylistedTrack.track item in
      let t' := PlaylistedTrack.track item' in
      (truthy (OverrideItem.name override) = true →
         Some (Track.name t') = OverrideItem.name override)
      ∧ (truthy (OverrideItem.name override) = false → Track.name t' = Track.name t)
      ∧ (truthy (OverrideItem.artist override) = true →
         Some <$> (Artist.name <$> Track.artists t') = [OverrideItem.artist override])
      ∧ (truthy (OverrideItem.artist override) = false →
         Track.artists t' = Track.artists t)
      ∧ (truthy (OverrideItem.date override) = true →
         Some (Track.release_date t') = OverrideItem.date override)
      ∧ (truthy (OverrideItem.date override) = false →
         Track.release_date t' = Track.release_date t)
      ∧ Track.id t' = Track.id t
      ∧ Track.type t' = Track.type t
      ∧ Track.spotify t' = Track.spotify t
      ∧ PlaylistedTrack.added_at item' = PlaylistedTrack.added_at item
      ∧ (truthy (OverrideItem.name override) = false →
         truthy (OverrideItem.artist override) = false →
         truthy (OverrideItem.date override) = false →
         item' = item).
Proof.
  intros Hi Hov. eexists. split; [by apply applyOverrides_lookup|].
  unfold mergeItem, getProperty. rewrite Hov.
  destruct item as [added [id name artists release type spotify]].
  unfold applyOverride.
  cbn [PlaylistedTrack.track PlaylistedTrack.added_at
       Track.name Track.artists Track.release_date Track.id Track.type Track.spotify].
  split_and!; try done.
  - intros H. rewrite H. by destruct (truthy_true _ H) as (c & s & ->).
  - by intros ->.
  - intros H. rewrite H. by destruct (truthy_true _ H) as (c & s & ->).
  - by intros ->.
  - intros H. rewrite H. by destruct (truthy_true _ H) as (c & s & ->).
  - by intros ->.
  - by intros -> -> ->.
Qed.

Lemma merge_replaces_nonempty_fields_witness :
  ∃ item',
    applyOverrides (buildOverrides [dateOnlyOverride]) [sampleItem] !! 0 = Some item'
    ∧ Track.release_date (PlaylistedTrack.track item') = lit "1975"
    ∧ Track.name (PlaylistedTrack.track item') = Track.name sampleTrack
    ∧ Track.artists (PlaylistedTrack.track item') = Track.artists sampleTrack.
Proof.
  destruct (merge_replaces_nonempty_fields (buildOverrides [dateOnlyOverride])
              [sampleItem] 0 sampleItem dateOnlyOverride)
    as (item' & Hlook & _ & Hname & _ & Hartists & Hdate & _).
  - reflexivity.
  - vm_compute. reflexivity.
  - exists item'. split; [exact Hlook|]. split_and!.
    + specialize (Hdate eq_refl). by injection Hdate.
    + apply Hname. reflexivity.
    + apply Hartists. reflexivity.
Defined.

(** Formal reading of C4 as the specification states it: overriding the
    artist keeps the length of the artist list and its entries after the
    first. *)
Lemma artist_override_keeps_later_entries_fails :
  ¬ (∀ override track,
       truthy (OverrideItem.artist override) = true →
       length (Track.artists (applyOverride override track))
       = length (Track.artists track)
       ∧ tail (Track.artists (applyOverride override track))
         = tail (Track.artists track)).
Proof.
  intros H. destruct (H artistOverride sampleTrack eq_refl) as [Hlen _].
  vm_compute in Hlen. discriminate Hlen.
Qed.

(** C4 (amended): for a matched track whose override has a non-empty artist
    field, the merge replaces the artist list by a list of one entry: the
    first entry of the fetched list with its name replaced and its other
    properties kept (an entry with the name alone when the fetched list is
    empty).  Entries after the first are not carried over. *)
Theorem artist_override_single_entry
    (overrides : gmap jsstring OverrideItem.t)
    (items : list PlaylistedTrack.t) (i : nat)
    (item : PlaylistedTrack.t) (override : OverrideItem.t) :
  items !! i = Some item →
  overrides !! Track.spotify (PlaylistedTrack.track item) = Some override →
  truthy (OverrideItem.artist override) = true →
  ∃ item' artist,
    applyOverrides overrides items !! i = Some item'
    ∧ OverrideItem.artist override = Some artist
    ∧ Track.artists (PlaylistedTrack.track item')
      = [Artist.mk artist
           (match Track.artists (PlaylistedTrack.track item) with
            | first :: _ => Artist.rest first
            | [] => []
            end)].
Proof.
  intros Hi Hov Hartist.
  destruct (truthy_true _ Hartist) as (c & s & Hs).
  exists (mergeItem overrides item), (c :: s).
  split; [by apply applyOverrides_lookup|]. split; [done|].
  unfold mergeItem, getProperty. rewrite Hov.
  cbn [PlaylistedTrack.track applyOverride Track.artists].
  rewrite Hartist, Hs. unfold overrideArtists. cbn [default].
  by destruct (Track.artists (PlaylistedTrack.track item)).
Qed.

Lemma artist_override_single_entry_witness :
  ∃ item',
    applyOverrides (buildOverrides [artistOverride]) [sampleItem] !! 0 = Some item'
    ∧ Track.artists (PlaylistedTrack.track item')
      = [Artist.mk (lit "Band") [(lit "id", lit "a1")]].
Proof.
  destruct (artist_override_single_entry (buildOverrides [artistOverride])
              [sampleItem] 0 sampleItem artistOverride)
    as (item' & artist & Hlook & Hartist & Hlist).
  - reflexivity.
  - vm_compute. reflexivity.
  - reflexivity.
  - exists item'. split; [exact Hlook|].
    injection Hartist as <-. exact Hlist.
Defined.

(** ** Pagination *)

Lemma fetchPages_spec playlist pages last extra items offset requests :
  Forall (λ p, Page.next p ≠ None) pages →
  Page.next last = None →
  fetchPages playlist (pages ++ last :: extra) items offset requests
  = Some (items ++ concat (Page.items <$> (pages ++ [last])),
          requests ++ requestsFrom playlist offset (pages ++ [last])).
Proof.
  intros Hpages Hlast. revert items offset requests.
  induction Hpages as [|p pages Hp _ IH]; intros items offset requests.
  - cbn. by rewrite Hlast, app_nil_r.
  - cbn [app fetchPages]. destruct (Page.next p); [|done].
    rewrite IH. cbn. by rewrite <- !app_assoc.
Qed.

Lemma length_requestsFrom playlist offset pages :
  length (requestsFrom playlist offset pages) = length pages.
Proof. revert offset. induction pages; intros; cbn; by f_equal. Qed.

Lemma requestsFrom_step playlist offset pages i p r r' :
  pages !! i = Some p →
  requestsFrom playlist offset pages !! i = Some r →
  requestsFrom playlist offset pages !! S i = Some r' →
  Request.offset r' = (Request.offset r + Page.limit p)%Z.
Proof.
  revert offset i. induction pages as [|q pages IH]; intros offset i Hp Hr Hr'; [done|].
  destruct i as [|i].
  - cbn in Hp, Hr, Hr'. simplify_eq. destruct pages; [done|].
    cbn in Hr'. by simplify_eq.
  - cbn in Hp, Hr, Hr'. by eapply IH.
Qed.

Lemma requestsFrom_fields playlist offset pages :
  Forall (λ r, Request.playlist_id r = playlist ∧ Request.market r = lit "DE"
               ∧ Request.fields r = fields ∧ Request.limit r = 50%Z)
    (requestsFrom playlist offset pages).
Proof. revert offset. induction pages; intros; cbn; by constructor. Qed.

Lemma getPlaylist_matched {JSValue} (overrideItems : JSValue → option (list OverrideItem.t))
    (st : AppState JSValue) m lastIndex responses :
  exec playlistRegex (playlistRegex_lastIndex st) (url st) = (Some m, lastIndex) →
  getPlaylist overrideItems responses st
  = match fetchPages (capture m 1) responses [] 0%Z [] with
    | None => None
    | Some (items, requests) =>
        match readOverrideJson overrideItems st with
        | None => Some (reject TypeError (setLastIndex lastIndex st), requests)
        | Some overrideJson =>
            Some (setPlaylistItems
                    (applyOverrides (buildOverrides overrideJson) items)
                    (setLastIndex lastIndex st), requests)
        end
    end.
Proof. intros H. unfold getPlaylist. rewrite H. reflexivity. Qed.

Lemma requestsFrom_safe playlist offset pages last :
  Forall (λ p, (0 ≤ Page.limit p)%Z) pages →
  (0 ≤ offset)%Z →
  (offset + foldr Z.add 0 (Page.limit <$> pages) ≤ 2 ^ 53)%Z →
  Forall (λ r, (0 ≤ Request.offset r ≤ 2 ^ 53)%Z)
    (requestsFrom playlist offset (pages ++ [last])).
Proof.
  intros Hpos. revert offset.
  induction Hpos as [|p pages Hp Hpages IH]; intros offset Hoff Hsum.
  - cbn in *. repeat constructor; cbn; lia.
  - cbn [app requestsFrom]. cbn [fmap list_fmap foldr] in Hsum.
    assert (0 ≤ foldr Z.add 0 (Page.limit <$> pages))%Z as Hnonneg.
    { clear -Hpages. induction Hpages; cbn; lia. }
    constructor; [cbn; lia|]. apply IH; lia.
Qed.

(** C3: when the URL matches and the API answers with k pages, the first
    k-1 with a next-page indicator and the k-th with [null], getPlaylist
    issues exactly k requests: page size 50, the first at offset 0, each
    later one at the previous offset plus the limit the previous page
    reported; it stops there, and the displayed list is the pages' items in
    API order (with the overrides merged in).  The reported limits are
    taken to be non-negative integers summing to at most 2^53, so that all
    offsets are safe integers and the additions exact; when reading the
    stored overrides throws, the requests have been made all the same, the
    displayed list stays as it was and the rejection goes unhandled. *)
Theorem getPlaylist_pagination {JSValue} (overrideItems : JSValue → option (list OverrideItem.t))
    (st : AppState JSValue) (m : MatchArray) (lastIndex : nat)
    (pages : list Page.t) (last : Page.t) (extra : list Page.t) :
  exec playlistRegex (playlistRegex_lastIndex st) (url st) = (Some m, lastIndex) →
  Forall (λ p, Page.next p ≠ None) pages →
  Page.next last = None →
  exactOffsets pages →
  ∃ st' requests,
    getPlaylist overrideItems (pages ++ last :: extra) st = Some (st', requests)
    ∧ length requests = S (length pages)
    ∧ Request.offset <$> requests !! 0 = Some 0%Z
    ∧ (∀ i p r r',
         (pages ++ [last]) !! i = Some p →
         requests !! i = Some r →
         requests !! S i = Some r' →
         Request.offset r' = (Request.offset r + Page.limit p)%Z)
    ∧ Forall (λ r, (0 ≤ Request.offset r ≤ 2 ^ 53)%Z) requests
    ∧ Forall (λ r, Request.playlist_id r = capture m 1 ∧ Request.market r = lit "DE"
                   ∧ Request.fields r = fields ∧ Request.limit r = 50%Z) requests
    ∧ (∀ overrideJson,
         readOverrideJson overrideItems st = Some overrideJson →
         playlistItems st'
         = Some (mergeItem (buildOverrides overrideJson)
                   <$> concat (Page.items <$> (pages ++ [last]))))
    ∧ (readOverrideJson overrideItems st = None →
         playlistItems st' = playlistItems st
         ∧ unhandledRejections st' = unhandledRejections st ++ [TypeError]).
Proof.
  intros Hexec Hpages Hlast [Hpos Hsum].
  rewrite (getPlaylist_matched _ _ _ _ _ Hexec), fetchPages_spec by done.
  destruct (readOverrideJson overrideItems st) as [overrideJson|];
    do 2 eexists; (split; [reflexivity|]); cbn [app]; split_and!; try done.
  all: try (rewrite length_requestsFrom, length_app; cbn; lia).
  all: try (by destruct pages).
  all: try (intros i p r r'; apply requestsFrom_step).
  all: try (apply requestsFrom_safe; [done|lia|lia]).
  all: try apply requestsFrom_fields.
  by intros ? [= <-].
Qed.

Lemma getPlaylist_pagination_witness :
  ∃ st' requests,
    getPlaylist (λ v, Some v) [samplePage1; samplePage2; samplePage1] sampleState
    = Some (st', requests)
    ∧ length requests = 2
    ∧ playlistItems st' = Some [sampleItem; sampleItem; sampleItem].
Proof.
  destruct (getPlaylist_pagination (λ v : list OverrideItem.t, Some v) sampleState
              (default ∅ (exec playlistRegex 0 (lit "https://open.spotify.com/playlist/abc")).1)
              (exec playlistRegex 0 (lit "https://open.spotify.com/playlist/abc")).2
              [samplePage1] samplePage2 [samplePage1])
    as (st' & requests & Hrun & Hlen & _ & _ & _ & _ & Hitems & _).
  - vm_compute. reflexivity.
  - constructor; [discriminate|constructor].
  - reflexivity.
  - split; [repeat constructor; discriminate|]. cbn. lia.
  - exists st', requests. split; [exact Hrun|]. split; [exact Hlen|].
    vm_compute in Hrun. injection Hrun as <- _. reflexivity.
Defined.

(** ** playlistRegex *)

(** A successful search succeeded at some index at or after its start. *)
Lemma search_inv R bef aft st :
  search R bef aft = Some st →
  ∃ bef' aft' st0,
    rev bef' ++ aft' = rev bef ++ aft
    ∧ matcher (multiline R) (source R) Some (mkState bef' aft' ∅) = Some st0.
Proof.
  revert bef. induction aft as [|c aft IH]; intros bef; rewrite search_unfold.
  - destruct (matcher _ _ _ _) as [st0|] eqn:Hm; [|done]. eauto.
  - destruct (matcher _ _ _ _) as [st0|] eqn:Hm; [eauto|].
    intros H. apply IH in H as (bef' & aft' & st0 & Heq & Hm').
    exists bef', aft', st0. split; [|done].
    rewrite Heq. cbn [rev]. by rewrite <- app_assoc.
Qed.

Lemma matcher_AssertStart_inv k st r :
  matcher true AssertStart k st = Some r →
  endsLine (rev (before st)) ∧ k st = Some r.
Proof.
  cbn [matcher]. destruct (before st) as [|c bef] eqn:Hbef.
  - intros H. split; [by left|done].
  - cbn [andb]. destruct (isLineTerminator c) eqn:Hc; [|done].
    intros H. split; [|done]. right. exists (rev bef), c. by cbn [rev].
Qed.

Lemma playlistRegex_matcher_inv bef aft r :
  matcher true (source playlistRegex) Some (mkState bef aft ∅) = Some r →
  PlaylistUrlShape (rev bef ++ aft).
Proof.
  unfold playlistRegex, source. rewrite matcher_Cat. intros H.
  apply matcher_AssertStart_inv in H as [Hline H]. cbn [before] in Hline.
  rewrite matcher_Cat in H.
  apply matcher_Literal_inv in H as (tl & Haft & H). cbn [after] in Haft.
  rewrite matcher_Cat, matcher_Group in H.
  apply matcher_Plus_inv in H as (c & tl' & Htl & Hc & _). cbn [after] in Htl.
  exists (rev bef), [c], tl'. subst aft tl. split_and!; try done.
  cbn [forallb]. unfold isIdChar. by rewrite Hc.
Qed.

(** [.*$] with the m flag always succeeds, at the end of the current
    line. *)
Lemma dotStarEnd_multiline bef tl caps :
  ∃ line rest,
    tl = line ++ rest
    ∧ matcher true (Cat (Star AnyChar) AssertEnd) Some (mkState bef tl caps)
      = Some (mkState (rev line ++ bef) rest caps).
Proof.
  destruct (longest_run notLineTerminator (λ _, true) tl)
    as (line & rest & -> & Hline & Hrest & _).
  { by induction tl. }
  exists line, rest. split; [done|].
  rewrite matcher_Cat. cbn [matcher before after captures].
  apply repeatMatcher_greedy; [done|done|].
  cbn [matcher after]. destruct rest as [|c rest]; [done|].
  specialize (Hrest c eq_refl). unfold notLineTerminator in Hrest.
  apply negb_false_iff in Hrest. by rewrite Hrest.
Qed.

(** With [lastIndex] at 0, a URL that starts with
    [https://open.spotify.com/playlist/<id>] matches and [match[1]] is the
    identifier. *)
Lemma playlistRegex_exec_fresh id tail :
  id ≠ [] → forallb isIdChar id = true →
  (∀ c, head tail = Some c → isIdChar c = false) →
  ∃ m lastIndex,
    exec playlistRegex 0 (lit "https://open.spotify.com/playlist/" ++ id ++ tail)
    = (Some m, lastIndex)
    ∧ m !! 1 = Some id.
Proof.
  intros Hne Hid Hwhole. destruct id as [|c id]; [done|].
  cbn [forallb] in Hid. apply andb_prop in Hid as [Hc Hid].
  unfold exec. change (global playlistRegex) with true. cbv iota.
  change (length _ <? 0) with false. cbv iota.
  change (rev (take 0 ?l)) with (@nil N). change (drop 0 ?l) with l.
  rewrite search_unfold. change (multiline playlistRegex) with true.
  unfold playlistRegex at 1, source.
  rewrite matcher_Cat, matcher_AssertStart_0, matcher_Cat, matcher_Literal,
    matcher_Cat, matcher_Group.
  change ((c :: id) ++ tail) with (c :: id ++ tail).
  rewrite matcher_Plus by exact Hc.
  destruct (dotStarEnd_multiline
              (rev id ++ c :: rev (lit "https://open.spotify.com/playlist/") ++ [])
              tail (<[1 := c :: id]> ∅)) as (line & rest & Htail & Hm).
  erewrite repeatMatcher_greedy; [|exact Hid|exact Hwhole|]; last first.
  { erewrite (setCapture_eq 1 _ _ _ _ _ _ (c :: id)); [exact Hm|done|].
    cbn [rev]. by rewrite <- app_assoc. }
  do 2 eexists. split; [reflexivity|].
  unfold setCapture. cbn [captures].
  by rewrite lookup_insert_ne, lookup_insert_eq.
Qed.

(** Whatever [lastIndex] holds, [playlistRegex.exec(url)] finds nothing in
    a URL without the shape, and resets [lastIndex]. *)
Lemma playlistRegex_exec_no_shape lastIndex url :
  ¬ PlaylistUrlShape url → exec playlistRegex lastIndex url = (None, 0).
Proof.
  intros Hno. unfold exec. change (global playlistRegex) with true. cbv iota.
  destruct (length url <? lastIndex); [done|].
  destruct (search playlistRegex _ _) as [st|] eqn:Hs; [|done].
  apply search_inv in Hs as (bef' & aft' & st0 & Heq & Hm).
  change (multiline playlistRegex) with true in Hm.
  apply playlistRegex_matcher_inv in Hm.
  rewrite Heq, rev_involutive, take_drop in Hm. done.
Qed.

Lemma singleLine_no_shape url :
  forallb notLineTerminator url = true →
  (∀ id tail, id ≠ [] → forallb isIdChar id = true →
     url ≠ lit "https://open.spotify.com/playlist/" ++ id ++ tail) →
  ¬ PlaylistUrlShape url.
Proof.
  intros Hline Hno (pre & id & tail & -> & [-> | (pre' & c & -> & Hc)] & Hne & Hid).
  - by apply (Hno id tail).
  - rewrite !forallb_app in Hline. cbn [forallb] in Hline.
    unfold notLineTerminator at 2 in Hline. rewrite Hc in Hline.
    cbn in Hline. by rewrite !andb_false_r in Hline.
Qed.

(** C8: for a URL that does not match the playlist pattern (no line of it
    starts with [https://open.spotify.com/playlist/<id>]; for a one-line
    URL: it does not start with it), getPlaylist returns at once: no
    request is issued, nothing is thrown, and the displayed track list, the
    error message and every other cell of the state stay as they were; only
    the regular expression's [lastIndex] is reset to 0. *)
Theorem getPlaylist_no_match_noop {JSValue} (overrideItems : JSValue → option (list OverrideItem.t))
    (st : AppState JSValue) (responses : list Page.t) :
  (¬ PlaylistUrlShape (url st)
   ∨ (forallb notLineTerminator (url st) = true
      ∧ ∀ id tail, id ≠ [] → forallb isIdChar id = true →
          url st ≠ lit "https://open.spotify.com/playlist/" ++ id ++ tail)) →
  ∃ st',
    getPlaylist overrideItems responses st = Some (st', [])
    ∧ st' = setLastIndex 0 st
    ∧ playlistItems st' = playlistItems st
    ∧ overrideJsonErrorMessage st' = overrideJsonErrorMessage st.
Proof.
  intros H.
  assert (¬ PlaylistUrlShape (url st)) as Hno.
  { destruct H as [H | [Hline H]]; [done|]. by apply singleLine_no_shape. }
  exists (setLastIndex 0 st). split_and!; try done.
  unfold getPlaylist. by rewrite playlistRegex_exec_no_shape.
Qed.

Lemma getPlaylist_no_match_noop_witness :
  getPlaylist (λ v, Some v) [samplePage2]
    (setUrl (lit "https://open.spotify.com/album/abc") sampleState)
  = Some (setUrl (lit "https://open.spotify.com/album/abc") sampleState, []).
Proof.
  destruct (getPlaylist_no_match_noop (λ v : list OverrideItem.t, Some v)
              (setUrl (lit "https://open.spotify.com/album/abc") sampleState)
              [samplePage2])
    as (st' & Hrun & -> & _).
  - right. split; [reflexivity|].
    intros id tail _ _ H. vm_compute in H. discriminate H.
  - exact Hrun.
Defined.

(** C9, evaluated on the code: the same URL submitted twice.  The first
    call matches, extracts [abc] and fetches; it leaves [lastIndex] at the
    end of the match, so the second call finds no match and does nothing. *)
Theorem getPlaylist_same_url_twice :
  ∃ st1 requests1,
    getPlaylist (λ v, Some v) [samplePage2] sampleState = Some (st1, requests1)
    ∧ Request.playlist_id <$> requests1 = [lit "abc"]
    ∧ url st1 = url sampleState
    ∧ playlistRegex_lastIndex st1 = 37
    ∧ getPlaylist (λ v, Some v) [samplePage2] st1 = Some (setLastIndex 0 st1, [])
    ∧ (exec playlistRegex 0 (url sampleState)).1 ≠ None
    ∧ (exec playlistRegex 37 (url sampleState)).1 = None.
Proof.
  do 2 eexists. split; [vm_compute; reflexivity|].
  split_and!; try (vm_compute; reflexivity). vm_compute. discriminate.
Qed.

(** ** The override text handler *)

Section Handler.
Context {JSValue : Type}.
Variable JSON_parse : jsstring → option JSValue.
Variable overrideItems : JSValue → option (list OverrideItem.t).
Variable emptyString : JSValue.

Lemma getPlaylist_overrideJsonRef responses (st st' : AppState JSValue) requests :
  getPlaylist overrideItems responses st = Some (st', requests) →
  overrideJsonRef st' = overrideJsonRef st.
Proof.
  unfold getPlaylist.
  destruct (exec playlistRegex _ _) as [[m|] lastIndex].
  - destruct (fetchPages _ _ _ _ _) as [[items reqs]|]; [|done].
    destruct (readOverrideJson _ _); by intros [= <- _].
  - by intros [= <- _].
Qed.

Lemma step_overrideJsonRef e (st : AppState JSValue) :
  is_Some (overrideJsonRef st) →
  is_Some (overrideJsonRef (step JSON_parse overrideItems e st)).
Proof.
  intros [v Hv]. destruct e; cbn [step]; try (by rewrite ?Hv; eauto).
  - unfold handleOverrideChange. rewrite Hv.
    destruct (JSON_parse input); cbn; [eauto|]. rewrite Hv. eauto.
  - destruct (getPlaylist _ _ _) as [[st' reqs]|] eqn:Hg.
    + rewrite (getPlaylist_overrideJsonRef _ _ _ _ Hg), Hv. eauto.
    + cbn. rewrite Hv. eauto.
Qed.

(** The ref object created by [useRef({value: ""})] is never replaced by
    [null]. *)
Lemma run_overrideJsonRef events :
  is_Some (overrideJsonRef (run JSON_parse overrideItems emptyString events)).
Proof.
  unfold run. induction events as [|e events IH] using rev_ind.
  - cbn. eauto.
  - rewrite foldl_app. cbn [foldl]. by apply step_overrideJsonRef.
Qed.

(** C6: in every state the application can reach, text that is not valid
    JSON sets the message to "Invalid JSON!" and leaves the stored parsed
    value as it was; valid JSON stores the parsed value and clears the
    message. *)
Theorem handleOverrideChange_stale_on_error (events : list (Event)) (input : jsstring) :
  let st := run JSON_parse overrideItems emptyString events in
  let st' := handleOverrideChange JSON_parse input st in
  (JSON_parse input = None →
     overrideJsonErrorMessage st' = lit "Invalid JSON!"
     ∧ overrideJsonRef st' = overrideJsonRef st)
  ∧ (∀ v, JSON_parse input = Some v →
       overrideJsonRef st' = Some v ∧ overrideJsonErrorMessage st' = []).
Proof.
  intros st st'. subst st'. unfold handleOverrideChange.
  destruct (run_overrideJsonRef events) as [v0 Hv0]. fold st in Hv0.
  rewrite Hv0. split.
  - by intros ->.
  - by intros v ->.
Qed.
End Handler.

Lemma handleOverrideChange_stale_on_error_witness :
  overrideJsonErrorMessage
    (handleOverrideChange sampleParse (lit "[{")
       (run sampleParse (λ v, Some v) [] [ChangeOverride (lit "[]")]))
  = lit "Invalid JSON!"
  ∧ overrideJsonRef
      (handleOverrideChange sampleParse (lit "[{")
         (run sampleParse (λ v, Some v) [] [ChangeOverride (lit "[]")]))
    = Some [].
Proof.
  pose proof (handleOverrideChange_stale_on_error sampleParse (λ v, Some v) []
                [ChangeOverride (lit "[]")] (lit "[{")) as [Hbad _].
  exact (Hbad eq_refl).
Defined.


(** ** arrayChunks *)

Section ArrayChunksProperties.
Context {A : Type}.
Implicit Types (array : list A) (c k i : nat).

Lemma ceilDiv_covers a c : 0 < c → a ≤ ceilDiv a c * c.
Proof.
  intros Hc. unfold ceilDiv.
  pose proof (Nat.div_mod_eq a c). pose proof (Nat.mod_upper_bound a c).
  destruct (a mod c =? 0) eqn:Hm; [apply Nat.eqb_eq in Hm|]; nia.
Qed.

Lemma ceilDiv_tight a c i : 0 < c → i < ceilDiv a c → i * c < a.
Proof.
  intros Hc. unfold ceilDiv.
  pose proof (Nat.div_mod_eq a c).
  destruct (a mod c =? 0) eqn:Hm; [apply Nat.eqb_eq in Hm|apply Nat.eqb_neq in Hm]; nia.
Qed.

Lemma arrayChunks_Some array c :
  0 < c →
  arrayChunks array c
  = Some ((λ i, take c (drop (i * c) array)) <$> seq 0 (ceilDiv (length array) c)).
Proof.
  intros Hc. unfold arrayChunks. destruct c as [|c]; [lia|]. cbn [Nat.eqb].
  f_equal. rewrite <- list_fmap_compose. apply list_fmap_ext.
  intros _ i _. unfold compose, slice. f_equal. lia.
Qed.

Lemma concat_chunks array c k :
  concat ((λ i, take c (drop (i * c) array)) <$> seq 0 k) = take (k * c) array.
Proof.
  induction k as [|k IH]; [done|].
  rewrite seq_S, fmap_app, concat_app, IH. cbn.
  rewrite app_nil_r, take_take_drop. f_equal. lia.
Qed.

Lemma chunks_lookup array c k i (chunk : list A) :
  ((λ i, take c (drop (i * c) array)) <$> seq 0 k) !! i = Some chunk →
  i < k ∧ chunk = take c (drop (i * c) array).
Proof.
  rewrite list_lookup_fmap. intros H.
  destruct (seq 0 k !! i) as [j|] eqn:Hj; [|done].
  apply lookup_seq in Hj as [-> ?]. cbn in H. by simplify_eq.
Qed.

(** What [arrayChunks] returns for a positive chunk size: the ceiling of
    length over size many chunks, which concatenate to the array, each
    non-empty and no longer than the size. *)
Lemma arrayChunks_spec array c :
  0 < c →
  ∃ chunks,
    arrayChunks array c = Some chunks
    ∧ length chunks = ceilDiv (length array) c
    ∧ concat chunks = array
    ∧ Forall (λ chunk, 0 < length chunk ≤ c) chunks
    ∧ ∀ i chunk, chunks !! i = Some chunk → chunk = take c (drop (i * c) array).
Proof.
  intros Hc. eexists. split; [by apply arrayChunks_Some|]. split_and!.
  - by rewrite length_fmap, length_seq.
  - rewrite concat_chunks. apply take_ge. by apply ceilDiv_covers.
  - apply Forall_lookup. intros i chunk H.
    apply chunks_lookup in H as [Hi ->].
    apply (ceilDiv_tight _ c) in Hi; [|done].
    rewrite length_take, length_drop. lia.
  - intros i chunk H. by apply chunks_lookup in H as [_ ->].
Qed.
End ArrayChunksProperties.

Lemma lookup_concat_pairs {A B} (f b : A → B) (gs : list A) (i : nat) :
  concat ((λ g, [f g; b g]) <$> gs) !! (2 * i) = f <$> gs !! i
  ∧ concat ((λ g, [f g; b g]) <$> gs) !! (2 * i + 1) = b <$> gs !! i.
Proof.
  revert i. induction gs as [|g gs IH]; intros i; [done|].
  destruct i as [|i]; [done|].
  replace (2 * S i) with (S (S (2 * i))) by lia.
  replace (S (S (2 * i)) + 1) with (S (S (2 * i + 1))) by lia.
  apply IH.
Qed.

Lemma elem_of_concat {A} (x : A) (l : list A) (ls : list (list A)) :
  x ∈ l → l ∈ ls → x ∈ concat ls.
Proof.
  intros Hx Hl. induction Hl as [l ls|l l' ls _ IH]; cbn; apply elem_of_app; auto.
Qed.

Lemma length_concat_pairs {A B} (f b : A → B) (gs : list A) :
  length (concat ((λ g, [f g; b g]) <$> gs)) = 2 * length gs.
Proof. induction gs as [|g gs IH]; [done|]. cbn. rewrite IH. lia. Qed.


(** ** The document *)

Section LayoutProperties.
Variable formatYear : jsstring → jsstring.
Variable name : jsstring.
Variable codeType : jsstring.

Lemma pagePair_Some pageChunks :
  pagePair formatYear name codeType pageChunks
  = Some [frontPage formatYear name (default [] (arrayChunks pageChunks 3));
          backPage codeType (default [] (arrayChunks pageChunks 3))].
Proof.
  unfold pagePair. by rewrite (arrayChunks_Some pageChunks 3) by lia.
Qed.

Lemma Document_Some playlistItems groups :
  arrayChunks playlistItems 12 = Some groups →
  Document formatYear name codeType playlistItems
  = Some (concat ((λ g, [frontPage formatYear name (default [] (arrayChunks g 3));
                         backPage codeType (default [] (arrayChunks g 3))]) <$> groups)).
Proof.
  intros Hg. unfold Document. rewrite Hg. cbn [mbind option_bind].
  erewrite mapM_Some_2; [reflexivity|].
  apply Forall2_fmap_r, Forall2_same_length_lookup. split; [done|].
  intros i g g' Hi Hi'. simplify_eq. apply pagePair_Some.
Qed.

Lemma key_frontCard (rowChunk : list PlaylistedTrack.t) :
  key <$> (frontCard formatYear name <$> rowChunk) = trackId <$> rowChunk.
Proof. rewrite <- list_fmap_compose. by apply list_fmap_ext. Qed.

Lemma key_backCard (rowChunk : list PlaylistedTrack.t) :
  key <$> (backCard codeType <$> rowChunk) = trackId <$> rowChunk.
Proof. rewrite <- list_fmap_compose. by apply list_fmap_ext. Qed.

Lemma backPage_cards (rowChunks : list (list PlaylistedTrack.t)) :
  concat (cards <$> rows (backPage codeType rowChunks))
  = backCard codeType <$> concat rowChunks.
Proof.
  unfold backPage. cbn [rows].
  induction rowChunks as [|r rowChunks IH]; [done|].
  cbn. by rewrite IH, fmap_app.
Qed.
(** C5: n entries give ceil(n/12) page groups of at most 12 entries, in
    the original order (25 entries: 12, 12, 1).  Group i is rendered as
    pages 2i (front) and 2i+1 (back); both split the group into the same
    rows of at most 3 entries.  Laid out left to right, a row of the back
    page is the mirror image of the same row of the front page, and the
    back page holds a card for each entry of the group and nothing else. *)
Theorem Document_layout (playlistItems : list PlaylistedTrack.t) :
  ∃ groups pages,
    arrayChunks playlistItems 12 = Some groups
    ∧ Document formatYear name codeType playlistItems = Some pages
    ∧ length groups = ceilDiv (length playlistItems) 12
    ∧ concat groups = playlistItems
    ∧ Forall (λ group, 0 < length group ≤ 12) groups
    ∧ length pages = 2 * length groups
    ∧ (∀ i group, groups !! i = Some group →
        ∃ rowChunks front back,
          arrayChunks group 3 = Some rowChunks
          ∧ concat rowChunks = group
          ∧ Forall (λ rowChunk, 0 < length rowChunk ≤ 3) rowChunks
          ∧ pages !! (2 * i) = Some front
          ∧ pages !! (2 * i + 1) = Some back
          ∧ length (rows front) = length rowChunks
          ∧ length (rows back) = length rowChunks
          ∧ (∀ j rowChunk, rowChunks !! j = Some rowChunk →
              ∃ frontRow backRow,
                rows front !! j = Some frontRow
                ∧ rows back !! j = Some backRow
                ∧ key <$> visualOrder frontRow = trackId <$> rowChunk
                ∧ key <$> visualOrder backRow = reverse (key <$> visualOrder frontRow)
                ∧ length (cards backRow) = length rowChunk)
          ∧ key <$> concat (cards <$> rows back) = trackId <$> group)
    ∧ (length playlistItems = 25 → length <$> groups = [12; 12; 1]).
Proof.
  destruct (arrayChunks_spec playlistItems 12)
    as (groups & Hgroups & Hlen & Hconcat & Hsizes & Hchunk); [lia|].
  exists groups. eexists. split; [done|].
  split; [by apply Document_Some|]. split_and!; try done.
  - apply length_concat_pairs.
  - intros i group Hi.
    destruct (arrayChunks_spec group 3)
      as (rowChunks & Hrows & _ & Hrconcat & Hrsizes & _); [lia|].
    destruct (lookup_concat_pairs
      (λ g, frontPage formatYear name (default [] (arrayChunks g 3)))
      (λ g, backPage codeType (default [] (arrayChunks g 3))) groups i) as [Hf Hb].
    rewrite Hi in Hf, Hb. cbn [fmap option_fmap option_map] in Hf, Hb.
    rewrite Hrows in Hf, Hb. cbn [default] in Hf, Hb.
    exists rowChunks, (frontPage formatYear name rowChunks), (backPage codeType rowChunks).
    split_and!; try done.
    + unfold frontPage. cbn [rows]. by rewrite length_fmap.
    + unfold backPage. cbn [rows]. by rewrite length_fmap.
    + intros j rowChunk Hj.
      exists (mkRow row (frontCard formatYear name <$> rowChunk)),
             (mkRow row_reverse (backCard codeType <$> rowChunk)).
      unfold frontPage, backPage, visualOrder. cbn [rows flexDirection cards].
      rewrite !list_lookup_fmap, Hj. split_and!; try done.
      * apply key_frontCard.
      * by rewrite fmap_reverse, key_frontCard, key_backCard.
      * by rewrite length_fmap.
    + by rewrite backPage_cards, key_backCard, Hrconcat.
  - intros H25. rewrite H25 in Hlen. change (ceilDiv 25 12) with 3 in Hlen.
    destruct groups as [|g0 [|g1 [|g2 [|g3 groups]]]]; try done.
    rewrite (Hchunk 0 g0), (Hchunk 1 g1), (Hchunk 2 g2) by done.
    cbn [fmap list_fmap]. rewrite !length_take, !length_drop, H25. done.
Qed.

(** C10: every card of a back page has one child, an image.  With code
    type [qr] its source is the QR code generated for
    [spotify:track:<id>] of the card's entry; with any other code type it
    is the URL
    [https://scannables.scdn.co/uri/plain/jpeg/FFFFFF/black/320/spotify:track:<id>]. *)
Theorem backCard_scannable_code (playlistItems : list PlaylistedTrack.t)
    (pages : list PDFPage) (i : nat) (back : PDFPage) (backRow : RowView) (card : CardView) :
  Document formatYear name codeType playlistItems = Some pages →
  pages !! (2 * i + 1) = Some back →
  backRow ∈ rows back →
  card ∈ cards backRow →
  ∃ item,
    item ∈ playlistItems
    ∧ key card = trackId item
    ∧ (codeType = lit "qr" →
         children card
         = [Image (QRCode_toDataURL (lit "spotify:track:" ++ trackId item) (lit "H"))])
    ∧ (codeType ≠ lit "qr" →
         children card
         = [Image (ImageUrl
              (lit "https://scannables.scdn.co/uri/plain/jpeg/FFFFFF/black/320/spotify:track:"
                 ++ trackId item))]).
Proof.
  intros Hdoc Hback Hrow Hcard.
  destruct (arrayChunks_spec playlistItems 12)
    as (groups & Hgroups & _ & Hconcat & _ & _); [lia|].
  rewrite (Document_Some _ _ Hgroups) in Hdoc.
  apply (inj Some) in Hdoc. subst pages.
  destruct (lookup_concat_pairs
    (λ g, frontPage formatYear name (default [] (arrayChunks g 3)))
    (λ g, backPage codeType (default [] (arrayChunks g 3))) groups i) as [_ Hb].
  rewrite Hb in Hback. clear Hb.
  destruct (groups !! i) as [group|] eqn:Hi; [|done].
  cbn [fmap option_fmap option_map] in Hback.
  apply (inj Some) in Hback. subst back.
  destruct (arrayChunks_spec group 3)
    as (rowChunks & Hrows & _ & Hrconcat & _ & _); [lia|].
  rewrite Hrows in Hrow. cbn [default] in Hrow.
  unfold backPage in Hrow. cbn [rows] in Hrow.
  apply list_elem_of_fmap in Hrow as (rowChunk & -> & HrowChunk).
  cbn [cards] in Hcard.
  apply list_elem_of_fmap in Hcard as (item & -> & Hitem).
  exists item. split_and!.
  - rewrite <- Hconcat. apply (elem_of_concat _ group).
    + rewrite <- Hrconcat. by apply (elem_of_concat _ rowChunk).
    + by eapply list_elem_of_lookup_2.
  - done.
  - intros ->. unfold backCard. cbn [children]. by rewrite decide_True.
  - intros Hne. unfold backCard. cbn [children]. by rewrite decide_False.
Qed.
End LayoutProperties.

Lemma Document_layout_witness :
  ∃ groups,
    arrayChunks (replicate 25 sampleItem) 12 = Some groups
    ∧ length <$> groups = [12; 12; 1].
Proof.
  destruct (Document_layout sampleFormatYear (lit "Quiz") (lit "qr") (replicate 25 sampleItem))
    as (groups & pages & Hgroups & _ & _ & _ & _ & _ & _ & H25).
  exists groups. split; [exact Hgroups|]. apply H25. reflexivity.
Defined.

Lemma backCard_scannable_code_witness :
  ∃ item,
    item ∈ [sampleItem]
    ∧ children (backCard (lit "spotify") sampleItem)
      = [Image (ImageUrl
           (lit "https://scannables.scdn.co/uri/plain/jpeg/FFFFFF/black/320/spotify:track:"
              ++ trackId item))].
Proof.
  destruct (backCard_scannable_code sampleFormatYear (lit "Quiz") (lit "spotify")
              [sampleItem]
              [frontPage sampleFormatYear (lit "Quiz") [[sampleItem]];
               backPage (lit "spotify") [[sampleItem]]]
              0
              (backPage (lit "spotify") [[sampleItem]])
              (mkRow row_reverse [backCard (lit "spotify") sampleItem])
              (backCard (lit "spotify") sampleItem))
    as (item & Hitem & _ & _ & Hurl).
  - reflexivity.
  - reflexivity.
  - left.
  - left.
  - exists item. split; [exact Hitem|]. apply Hurl. discriminate.
Defined.

(** * Further properties of the code *)

(** ** playlistRegex across calls *)

Lemma dotStarEnd_line ml bef tl caps :
  forallb notLineTerminator tl = true →
  matcher ml (Cat (Star AnyChar) AssertEnd) Some (mkState bef tl caps)
  = Some (mkState (rev tl ++ bef) [] caps).
Proof.
  intros H. rewrite matcher_Cat. cbn [matcher before after captures].
  rewrite <- (app_nil_r tl) at 1.
  by apply repeatMatcher_greedy.
Qed.

(** A one-line playlist URL, searched from index 0: the match runs to the
    end of the URL, which is where [lastIndex] is left. *)
Lemma playlistRegex_exec_single_line id tail :
  id ≠ [] → forallb isIdChar id = true →
  (∀ c, head tail = Some c → isIdChar c = false) →
  forallb notLineTerminator tail = true →
  ∃ m,
    exec playlistRegex 0 (lit "https://open.spotify.com/playlist/" ++ id ++ tail)
    = (Some m, length (lit "https://open.spotify.com/playlist/" ++ id ++ tail))
    ∧ m !! 1 = Some id.
Proof.
  intros Hne Hid Hwhole Htail. destruct id as [|c id]; [done|].
  cbn [forallb] in Hid. apply andb_prop in Hid as [Hc Hid].
  unfold exec. change (global playlistRegex) with true. cbv iota.
  change (length _ <? 0) with false. cbv iota.
  change (rev (take 0 ?l)) with (@nil N). change (drop 0 ?l) with l.
  rewrite search_unfold. change (multiline playlistRegex) with true.
  unfold playlistRegex at 1, source.
  rewrite matcher_Cat, matcher_AssertStart_0, matcher_Cat, matcher_Literal,
    matcher_Cat, matcher_Group.
  change ((c :: id) ++ tail) with (c :: id ++ tail).
  rewrite matcher_Plus by exact Hc.
  erewrite repeatMatcher_greedy; [|exact Hid|exact Hwhole|]; last first.
  { erewrite (setCapture_eq 1 _ _ _ _ _ _ (c :: id)); [by apply dotStarEnd_line|done|].
    cbn [rev]. by rewrite <- app_assoc. }
  eexists. split.
  - f_equal. unfold setCapture, endIndex. cbn [before].
    rewrite !length_app, !length_rev. cbn [length].
    rewrite !length_app, !length_rev. cbn [length]. lia.
  - unfold setCapture. cbn [captures].
    by rewrite lookup_insert_ne, lookup_insert_eq.
Qed.

Lemma forallb_rev_head (p : N → bool) (l : jsstring) c b :
  forallb p l = true → rev l = c :: b → p c = true.
Proof.
  intros Hall Hrev. rewrite forallb_forall in Hall. apply Hall.
  apply in_rev. rewrite Hrev. by left.
Qed.

(** The same URL searched again from its end: no line starts there, the
    search fails and [lastIndex] goes back to 0. *)
Lemma playlistRegex_exec_at_end url :
  url ≠ [] → forallb notLineTerminator url = true →
  exec playlistRegex (length url) url = (None, 0).
Proof.
  intros Hne Hline. unfold exec. change (global playlistRegex) with true. cbv iota.
  rewrite (proj2 (Nat.ltb_ge _ _)) by done.
  rewrite take_ge, drop_ge by done.
  rewrite search_unfold. change (multiline playlistRegex) with true.
  unfold playlistRegex, source. rewrite matcher_Cat.
  cbn [matcher before].
  destruct (rev url) as [|c b] eqn:Hrev.
  - apply (f_equal (@rev N)) in Hrev. rewrite rev_involutive in Hrev. done.
  - pose proof (forallb_rev_head _ _ _ _ Hline Hrev) as Hc.
    unfold notLineTerminator in Hc. apply negb_true_iff in Hc.
    by rewrite Hc.
Qed.

Lemma playlistUrl_single_line id tail :
  forallb isIdChar id = true → forallb notLineTerminator tail = true →
  forallb notLineTerminator (lit "https://open.spotify.com/playlist/" ++ id ++ tail) = true.
Proof.
  intros Hid Htail. rewrite !forallb_app, Htail, andb_true_r.
  apply andb_true_intro. split; [reflexivity|].
  rewrite forallb_forall in Hid |- *. intros c Hc.
  by apply isIdChar_notLineTerminator, Hid.
Qed.

(** X1: with [lastIndex] at 0 and a one-line playlist URL, getPlaylist
    fetches the playlist named in the URL; called again with the URL
    unchanged it finds no match, issues no request and leaves the displayed
    list alone, putting [lastIndex] back to 0, so that calls with the same
    URL alternate between fetching and doing nothing. *)
Theorem getPlaylist_alternates {JSValue} (overrideItems : JSValue → option (list OverrideItem.t))
    (st : AppState JSValue) (id tail : jsstring)
    (pages : list Page.t) (last : Page.t) (extra again : list Page.t) :
  url st = lit "https://open.spotify.com/playlist/" ++ id ++ tail →
  id ≠ [] → forallb isIdChar id = true →
  (∀ c, head tail = Some c → isIdChar c = false) →
  forallb notLineTerminator tail = true →
  playlistRegex_lastIndex st = 0 →
  Forall (λ p, Page.next p ≠ None) pages →
  Page.next last = None →
  ∃ st1 requests,
    getPlaylist overrideItems (pages ++ last :: extra) st = Some (st1, requests)
    ∧ requests ≠ []
    ∧ Forall (λ r, Request.playlist_id r = id) requests
    ∧ url st1 = url st
    ∧ getPlaylist overrideItems again st1 = Some (setLastIndex 0 st1, [])
    ∧ playlistItems (setLastIndex 0 st1) = playlistItems st1.
Proof.
  intros Hurl Hne Hid Hwhole Htail Hli Hpages Hlast.
  destruct (playlistRegex_exec_single_line id tail Hne Hid Hwhole Htail) as (m & Hexec & Hm).
  rewrite <- Hurl in Hexec.
  assert (exec playlistRegex (playlistRegex_lastIndex st) (url st)
          = (Some m, length (url st))) as Hexec' by by rewrite Hli.
  assert (url st ≠ []) as Hnonempty.
  { rewrite Hurl. cbn [lit list_ascii_of_string fmap list_fmap app]. discriminate. }
  assert (forallb notLineTerminator (url st) = true) as Hline.
  { rewrite Hurl. by apply playlistUrl_single_line. }
  rewrite (getPlaylist_matched _ _ _ _ _ Hexec'), fetchPages_spec by done.
  destruct (readOverrideJson overrideItems st) as [overrideJson|];
    do 2 eexists; (split; [reflexivity|]); split_and!; try done.
  all: try (by destruct pages).
  all: try (unfold capture; rewrite Hm; cbn [app];
            eapply Forall_impl; [apply requestsFrom_fields|]; by intros r [? _]).
  all: unfold getPlaylist;
    cbn [setPlaylistItems setLastIndex reject playlistRegex_lastIndex url];
    by rewrite playlistRegex_exec_at_end.
Qed.

Lemma getPlaylist_alternates_witness :
  ∃ st1 requests,
    getPlaylist (λ v, Some v) [samplePage1; samplePage2] sampleState = Some (st1, requests)
    ∧ requests ≠ []
    ∧ getPlaylist (λ v, Some v) [samplePage2] st1 = Some (setLastIndex 0 st1, []).
Proof.
  destruct (getPlaylist_alternates (λ v : list OverrideItem.t, Some v) sampleState
              (lit "abc") [] [samplePage1] samplePage2 [] [samplePage2])
    as (st1 & requests & Hrun & Hreq & _ & _ & Hagain & _).
  - reflexivity.
  - discriminate.
  - reflexivity.
  - discriminate.
  - reflexivity.
  - reflexivity.
  - constructor; [discriminate|constructor].
  - reflexivity.
  - exists st1, requests. split; [exact Hrun|]. split; [exact Hreq|exact Hagain].
Defined.

(** X2: getPlaylist writes the displayed track list and the regular
    expression's [lastIndex] (and leaves a rejection behind when it throws)
    and nothing else: URL, card name, code type, advanced-options flag,
    error message, parsed overrides and override text are as before,
    whether it matched or not. *)
Theorem getPlaylist_frame {JSValue} (overrideItems : JSValue → option (list OverrideItem.t))
    (responses : list Page.t) (st st' : AppState JSValue) (requests : list Request.t) :
  getPlaylist overrideItems responses st = Some (st', requests) →
  url st' = url st
  ∧ name st' = name st
  ∧ codeType st' = codeType st
  ∧ showAdvancedOptions st' = showAdvancedOptions st
  ∧ overrideJsonErrorMessage st' = overrideJsonErrorMessage st
  ∧ overrideJsonRef st' = overrideJsonRef st
  ∧ overrideText st' = overrideText st.
Proof.
  unfold getPlaylist.
  destruct (exec playlistRegex _ _) as [[m|] lastIndex].
  - destruct (fetchPages _ _ _ _ _) as [[items reqs]|]; [|done].
    destruct (readOverrideJson _ _); by intros [= <- _].
  - by intros [= <- _].
Qed.

Lemma getPlaylist_frame_witness :
  url (setPlaylistItems [sampleItem] (setLastIndex 37 sampleState))
  = lit "https://open.spotify.com/playlist/abc"
  ∧ overrideJsonRef (setPlaylistItems [sampleItem] (setLastIndex 37 sampleState))
    = Some [].
Proof.
  destruct (getPlaylist_frame (λ v : list OverrideItem.t, Some v) [samplePage2] sampleState
              (setPlaylistItems [sampleItem] (setLastIndex 37 sampleState))
              [Request.mk (lit "abc") market fields 50 0])
    as (Hurl & _ & _ & _ & _ & Href & _).
  - vm_compute. reflexivity.
  - split; [exact Hurl|exact Href].
Defined.

(** ** The pagination loop *)

(** X3: the loop is still waiting for a page exactly when every page
    answered so far carried a next-page indicator; it never stops before a
    page says [null]. *)
Theorem fetchPages_pending_iff (playlist : jsstring) (responses : list Page.t)
    (items : list PlaylistedTrack.t) (offset : Z) (requests : list Request.t) :
  fetchPages playlist responses items offset requests = None
  ↔ Forall (λ p, Page.next p ≠ None) responses.
Proof.
  revert items offset requests.
  induction responses as [|p responses IH]; intros items offset requests.
  - split; [constructor|done].
  - cbn [fetchPages]. destruct (Page.next p) eqn:Hp.
    + rewrite IH. split.
      * intros H. constructor; [by rewrite Hp|done].
      * by inversion 1.
    + split; [done|]. inversion 1. congruence.
Qed.

Lemma fetchPages_inv_gen playlist responses items0 offset requests0 items requests :
  fetchPages playlist responses items0 offset requests0 = Some (items, requests) →
  ∃ pages last extra,
    responses = pages ++ last :: extra
    ∧ Forall (λ p, Page.next p ≠ None) pages
    ∧ Page.next last = None
    ∧ items = items0 ++ concat (Page.items <$> (pages ++ [last]))
    ∧ requests = requests0 ++ requestsFrom playlist offset (pages ++ [last]).
Proof.
  revert items0 offset requests0.
  induction responses as [|p responses IH]; intros items0 offset requests0; [done|].
  cbn [fetchPages]. destruct (Page.next p) eqn:Hp.
  - intros H. apply IH in H as (pages & last & extra & -> & Hpages & Hlast & -> & ->).
    exists (p :: pages), last, extra. split_and!; try done.
    + constructor; [by rewrite Hp|done].
    + cbn. by rewrite <- app_assoc.
    + cbn. by rewrite <- app_assoc.
  - intros [= <- <-]. exists [], p, responses. split_and!; try done.
    cbn. by rewrite app_nil_r.
Qed.

(** X4: when the loop finishes it has consumed the answered pages up to
    and including the first one without a next-page indicator and none
    after it, has issued one request per consumed page (so at least one,
    even for an empty playlist), and returns the consumed pages' items in
    order. *)
Theorem fetchPages_inv (playlist : jsstring) (responses : list Page.t)
    (items : list PlaylistedTrack.t) (requests : list Request.t) :
  fetchPages playlist responses [] 0%Z [] = Some (items, requests) →
  ∃ pages last extra,
    responses = pages ++ last :: extra
    ∧ Forall (λ p, Page.next p ≠ None) pages
    ∧ Page.next last = None
    ∧ items = concat (Page.items <$> (pages ++ [last]))
    ∧ length requests = S (length pages)
    ∧ requests ≠ [].
Proof.
  intros H. apply fetchPages_inv_gen in H
    as (pages & last & extra & -> & Hpages & Hlast & -> & ->).
  exists pages, last, extra. split_and!; try done.
  - cbn [app]. rewrite length_requestsFrom, length_app. cbn. lia.
  - by destruct pages.
Qed.

Lemma fetchPages_inv_witness :
  ∃ pages last extra,
    [samplePage1; samplePage2; samplePage1] = pages ++ last :: extra
    ∧ Page.next last = None
    ∧ length pages = 1.
Proof.
  destruct (fetchPages_inv (lit "abc") [samplePage1; samplePage2; samplePage1]
              [sampleItem; sampleItem; sampleItem]
              [Request.mk (lit "abc") market fields 50 0;
               Request.mk (lit "abc") market fields 50 50])
    as (pages & last & extra & Heq & _ & Hlast & _ & Hlen & _).
  - reflexivity.
  - exists pages, last, extra. split; [exact Heq|]. split; [exact Hlast|].
    cbn in Hlen. by injection Hlen.
Defined.

Lemma requestsFrom_constant_limit playlist offset pages i r :
  Forall (λ p, Page.limit p = 50%Z) pages →
  requestsFrom playlist offset pages !! i = Some r →
  Request.offset r = (offset + 50 * Z.of_nat i)%Z.
Proof.
  intros Hpages. revert offset i.
  induction Hpages as [|p pages Hp _ IH]; intros offset i; [done|].
  destruct i as [|i]; cbn.
  - intros [= <-]. cbn. lia.
  - intros H. apply IH in H. rewrite H, Hp. lia.
Qed.

(** X5: when every consumed page reports the limit that was asked for,
    50, the i-th request (counting from 0) is made at offset 50 * i. *)
Theorem fetchPages_offsets_by_50 (playlist : jsstring) (responses : list Page.t)
    (items : list PlaylistedTrack.t) (requests : list Request.t)
    (i : nat) (r : Request.t) :
  fetchPages playlist responses [] 0%Z [] = Some (items, requests) →
  Forall (λ p, Page.limit p = 50%Z) responses →
  requests !! i = Some r →
  Request.offset r = (50 * Z.of_nat i)%Z.
Proof.
  intros H Hlimit Hr. apply fetchPages_inv_gen in H
    as (pages & last & extra & -> & _ & _ & _ & ->).
  cbn [app] in Hr. apply requestsFrom_constant_limit in Hr; [lia|].
  apply Forall_app in Hlimit as [Hpages Hrest]. apply Forall_app. split; [done|].
  apply Forall_cons in Hrest as [Hl _]. by constructor.
Qed.

Lemma fetchPages_offsets_by_50_witness :
  Request.offset (Request.mk (lit "abc") market fields 50 50) = 50%Z.
Proof.
  apply (fetchPages_offsets_by_50 (lit "abc") [samplePage1; samplePage2]
           [sampleItem; sampleItem; sampleItem]
           [Request.mk (lit "abc") market fields 50 0;
            Request.mk (lit "abc") market fields 50 50] 1).
  - reflexivity.
  - repeat constructor.
  - reflexivity.
Defined.

Lemma not_inherited_NoOverride (key : jsstring) :
  key ∉ objectPrototypeFunctions → getProperty ∅ key = NoOverride.
Proof.
  intros H. unfold getProperty. rewrite lookup_empty. by rewrite decide_False.
Qed.

Lemma applyOverrides_empty items :
  Forall (λ item, Track.spotify (PlaylistedTrack.track item) ∉ objectPrototypeFunctions)
    items →
  applyOverrides ∅ items = items.
Proof.
  unfold applyOverrides. induction 1 as [|item items Hitem _ IH]; [done|].
  cbn. rewrite IH. unfold mergeItem. by rewrite not_inherited_NoOverride.
Qed.

(** Nothing that starts like a web address is the name of a function of
    [Object.prototype]. *)
Lemma https_not_inherited (rest : jsstring) :
  lit "https://" ++ rest ∉ objectPrototypeFunctions.
Proof.
  unfold objectPrototypeFunctions. intros H.
  repeat (apply elem_of_cons in H as [H|H]; [by vm_compute in H|]).
  by apply elem_of_nil in H.
Qed.

(** X6: when the stored override value has no items (as the initial empty
    string has none) and no fetched track's canonical URL is the name of a
    function that objects inherit, a matching fetch displays exactly the
    items of the fetched pages, in order and untouched. *)
Theorem getPlaylist_without_overrides {JSValue}
    (overrideItems : JSValue → option (list OverrideItem.t))
    (st : AppState JSValue) (m : MatchArray) (lastIndex : nat)
    (pages : list Page.t) (last : Page.t) (extra : list Page.t) :
  exec playlistRegex (playlistRegex_lastIndex st) (url st) = (Some m, lastIndex) →
  Forall (λ p, Page.next p ≠ None) pages →
  Page.next last = None →
  readOverrideJson overrideItems st = Some [] →
  Forall (λ item, Track.spotify (PlaylistedTrack.track item) ∉ objectPrototypeFunctions)
    (concat (Page.items <$> (pages ++ [last]))) →
  ∃ st' requests,
    getPlaylist overrideItems (pages ++ last :: extra) st = Some (st', requests)
    ∧ playlistItems st' = Some (concat (Page.items <$> (pages ++ [last])))
    ∧ unhandledRejections st' = unhandledRejections st.
Proof.
  intros Hexec Hpages Hlast Hempty Hurls.
  rewrite (getPlaylist_matched _ _ _ _ _ Hexec), fetchPages_spec, Hempty by done.
  do 2 eexists. split; [reflexivity|].
  cbn [setPlaylistItems playlistItems unhandledRejections app]. split; [|done].
  f_equal. by apply applyOverrides_empty.
Qed.

Lemma getPlaylist_without_overrides_witness :
  ∃ st' requests,
    getPlaylist (λ v, Some v) [samplePage1; samplePage2] sampleState = Some (st', requests)
    ∧ playlistItems st' = Some [sampleItem; sampleItem; sampleItem].
Proof.
  destruct (getPlaylist_without_overrides (λ v : list OverrideItem.t, Some v) sampleState
           (default ∅ (exec playlistRegex 0 (lit "https://open.spotify.com/playlist/abc")).1)
           (exec playlistRegex 0 (lit "https://open.spotify.com/playlist/abc")).2
           [samplePage1] samplePage2 [])
    as (st' & requests & Hrun & Hitems & _).
  - vm_compute. reflexivity.
  - constructor; [discriminate|constructor].
  - reflexivity.
  - reflexivity.
  - repeat constructor; apply (https_not_inherited (lit "open.spotify.com/track/ABC123")).
  - exists st', requests. split; [exact Hrun|exact Hitems].
Defined.

(** ** Override keys *)

Lemma overrideKey_cases item :
  (∃ kind id tail,
     TrackLinkShape (OverrideItem.link item) kind id tail
     ∧ overrideKey item = lit "https://open.spotify.com/" ++ kind ++ lit "/" ++ id)
  ∨ ((∀ kind id tail, ¬ TrackLinkShape (OverrideItem.link item) kind id tail)
     ∧ overrideKey item = OverrideItem.link item).
Proof.
  destruct (matcher false (source trackUrlRegex) Some
              (mkState [] (OverrideItem.link item) ∅)) as [r|] eqn:Hm.
  - left. apply trackUrlRegex_matcher_inv in Hm as (kind & id & tail & Hshape).
    exists kind, id, tail. split; [done|]. by eapply overrideKey_shape.
  - assert (∀ kind id tail, ¬ TrackLinkShape (OverrideItem.link item) kind id tail) as Hno.
    { intros kind id tail Hshape.
      destruct (trackUrlRegex_matcher_shape _ _ _ _ Hshape) as [bef Hbef]. congruence. }
    right. split; [done|]. by apply overrideKey_no_shape.
Qed.

(** X7: the key of an override item is always a prefix of its link: the
    derivation only ever cuts the link's end off. *)
Theorem overrideKey_prefix (item : OverrideItem.t) :
  overrideKey item `prefix_of` OverrideItem.link item.
Proof.
  destruct (overrideKey_cases item) as [(kind & id & tail & [Hlink _ _ _ _ _] & ->) | [_ ->]].
  - exists tail. rewrite Hlink. by rewrite <- !app_assoc.
  - done.
Qed.

(** X8: deriving a key is idempotent: an item whose link is already the
    key of some item gets that same key, so a link copied from a track's
    canonical URL is left alone. *)
Theorem overrideKey_idempotent (item : OverrideItem.t) (date artist name : option jsstring) :
  overrideKey (OverrideItem.mk (overrideKey item) date artist name) = overrideKey item.
Proof.
  destruct (overrideKey_cases item)
    as [(kind & id & tail & [Hlink Hkind Hne Hid _ _] & ->) | [Hno ->]].
  - apply (overrideKey_shape _ kind id []). split; try done.
    cbn [OverrideItem.link]. by rewrite app_nil_r.
  - by apply (overrideKey_no_shape
                (OverrideItem.mk (OverrideItem.link item) date artist name)).
Qed.

(** ** The override index *)

Lemma buildOverrides_absent (overrideJson : list OverrideItem.t) (k : jsstring) :
  buildOverrides overrideJson !! k = None
  ↔ Forall (λ item, overrideKey item ≠ k) overrideJson.
Proof.
  rewrite buildOverrides_lookup, last_None, Forall_forall. split.
  - intros H item Hitem Hk. exact (filter_nil_not_elem_of _ _ _ H Hk Hitem).
  - intros H. induction overrideJson as [|o l IH]; [done|].
    rewrite filter_cons_False; [|apply H; by left].
    apply IH. intros item Hitem. apply H. by right.
Qed.

(** X9: what reading [overrides[k]] can find.  An override item is found
    only if it is in the override list and derives the key [k]; no item is
    found exactly when no item of the list derives [k]; and in that case
    the read still finds a function when [k] is the name of one that
    objects inherit, and nothing the merge acts on otherwise. *)
Theorem getProperty_sound (overrideJson : list OverrideItem.t) (k : jsstring) :
  (∀ item, getProperty (buildOverrides overrideJson) k = StoredItem item →
     item ∈ overrideJson ∧ overrideKey item = k)
  ∧ ((∀ item, getProperty (buildOverrides overrideJson) k ≠ StoredItem item)
     ↔ Forall (λ item, overrideKey item ≠ k) overrideJson)
  ∧ (Forall (λ item, overrideKey item ≠ k) overrideJson →
     getProperty (buildOverrides overrideJson) k
     = if decide (k ∈ objectPrototypeFunctions)
       then InheritedFunction (inheritedFunctionName k) else NoOverride).
Proof.
  unfold getProperty. split_and!.
  - intros item. destruct (buildOverrides overrideJson !! k) as [o|] eqn:Ho.
    + intros [= ->]. rewrite buildOverrides_lookup in Ho.
      apply last_Some_elem_of, list_elem_of_filter in Ho. tauto.
    + by destruct (decide _).
  - rewrite <- buildOverrides_absent.
    destruct (buildOverrides overrideJson !! k) as [o|]; split; try done.
    + intros H. by destruct (H o).
    + intros _ item. by destruct (decide _).
  - intros H. apply buildOverrides_absent in H. by rewrite H.
Qed.

Lemma getProperty_sound_witness :
  getProperty (buildOverrides [dateOnlyOverride; otherOverride]) (lit "constructor")
  = InheritedFunction (lit "Object").
Proof.
  apply (proj2 (proj2 (getProperty_sound [dateOnlyOverride; otherOverride]
                         (lit "constructor")))).
  repeat constructor; vm_compute; discriminate.
Defined.

(** ** Merge *)

(** X10: an override whose link is a track's canonical URL followed by
    anything on the same line (a share token, a further path) is applied to
    that track, provided no later item of the list derives the same key. *)
Theorem override_with_suffix_applies
    (earlier later : list OverrideItem.t) (override : OverrideItem.t)
    (item : PlaylistedTrack.t) (kind id tail : jsstring) :
  TrackLinkShape (OverrideItem.link override) kind id tail →
  Track.spotify (PlaylistedTrack.track item)
  = lit "https://open.spotify.com/" ++ kind ++ lit "/" ++ id →
  Forall (λ other, overrideKey other ≠ Track.spotify (PlaylistedTrack.track item)) later →
  mergeItem (buildOverrides (earlier ++ override :: later)) item
  = PlaylistedTrack.mk (PlaylistedTrack.added_at item)
      (applyOverride override (PlaylistedTrack.track item)).
Proof.
  intros Hshape Hurl Hlater.
  assert (overrideKey override = Track.spotify (PlaylistedTrack.track item)) as Hkey.
  { rewrite Hurl. by eapply overrideKey_shape. }
  unfold mergeItem, getProperty.
  rewrite buildOverrides_lookup, filter_app, filter_cons_True by done.
  replace (filter _ later) with (@nil OverrideItem.t).
  - by rewrite last_snoc.
  - symmetry. induction Hlater as [|other later Hother _ IH]; [done|].
    by rewrite filter_cons_False.
Qed.

Lemma override_with_suffix_applies_witness :
  mergeItem (buildOverrides [otherOverride; dateOnlyOverride]) sampleItem
  = PlaylistedTrack.mk (PlaylistedTrack.added_at sampleItem)
      (applyOverride dateOnlyOverride sampleTrack).
Proof.
  apply (override_with_suffix_applies [otherOverride] [] dateOnlyOverride sampleItem
           (lit "track") (lit "ABC123") (lit "?si=xyz")).
  - split.
    + reflexivity.
    + right. reflexivity.
    + discriminate.
    + reflexivity.
    + intros c [= <-]. reflexivity.
    + reflexivity.
  - reflexivity.
  - constructor.
Defined.

(** X11: an entry whose canonical URL is the key of no override item is
    left exactly as fetched, unless that URL is the name of a function that
    objects inherit ([constructor], [toString], ...): then the entry's track
    name becomes the function's name and the rest of it stays. *)
Theorem merge_no_match (overrideJson : list OverrideItem.t) (item : PlaylistedTrack.t) :
  Forall (λ override, overrideKey override ≠ Track.spotify (PlaylistedTrack.track item))
    overrideJson →
  (Track.spotify (PlaylistedTrack.track item) ∉ objectPrototypeFunctions →
     mergeItem (buildOverrides overrideJson) item = item)
  ∧ (Track.spotify (PlaylistedTrack.track item) ∈ objectPrototypeFunctions →
     mergeItem (buildOverrides overrideJson) item
     = PlaylistedTrack.mk (PlaylistedTrack.added_at item)
         (Track.mk (Track.id (PlaylistedTrack.track item))
            (inheritedFunctionName (Track.spotify (PlaylistedTrack.track item)))
            (Track.artists (PlaylistedTrack.track item))
            (Track.release_date (PlaylistedTrack.track item))
            (Track.type (PlaylistedTrack.track item))
            (Track.spotify (PlaylistedTrack.track item)))).
Proof.
  intros H. apply buildOverrides_absent in H.
  unfold mergeItem, getProperty. rewrite H.
  split; intros Hurl; [by rewrite decide_False|by rewrite decide_True].
Qed.

Lemma merge_no_match_witness :
  mergeItem (buildOverrides [otherOverride]) sampleItem = sampleItem.
Proof.
  refine (proj1 (merge_no_match [otherOverride] sampleItem _) _).
  - repeat constructor. vm_compute. discriminate.
  - apply (https_not_inherited (lit "open.spotify.com/track/ABC123")).
Defined.

(** X12: the merge keeps the list's length and, position by position, the
    entry's track id, canonical URL, type and added-at stamp; an override
    can change what a card says but not which track it belongs to. *)
Theorem applyOverrides_frame (overrides : gmap jsstring OverrideItem.t)
    (items : list PlaylistedTrack.t) :
  length (applyOverrides overrides items) = length items
  ∧ ∀ i item', applyOverrides overrides items !! i = Some item' →
      ∃ item,
        items !! i = Some item
        ∧ trackId item' = trackId item
        ∧ Track.spotify (PlaylistedTrack.track item')
          = Track.spotify (PlaylistedTrack.track item)
        ∧ Track.type (PlaylistedTrack.track item') = Track.type (PlaylistedTrack.track item)
        ∧ PlaylistedTrack.added_at item' = PlaylistedTrack.added_at item.
Proof.
  unfold applyOverrides. split; [by rewrite length_fmap|].
  intros i item'. rewrite list_lookup_fmap.
  destruct (items !! i) as [item|]; [|done]. intros [= <-].
  exists item. unfold mergeItem, trackId.
  by destruct (getProperty overrides _).
Qed.

Lemma applyOverride_idempotent override track :
  applyOverride override (applyOverride override track) = applyOverride override track.
Proof.
  unfold applyOverride.
  cbn [Track.id Track.name Track.artists Track.release_date Track.type Track.spotify].
  destruct (truthy (OverrideItem.name override)),
    (truthy (OverrideItem.artist override)),
    (truthy (OverrideItem.date override)); try done.
Qed.

(** X13: merging is idempotent: applying the same override index to an
    already merged list changes nothing more. *)
Theorem applyOverrides_idempotent (overrides : gmap jsstring OverrideItem.t)
    (items : list PlaylistedTrack.t) :
  applyOverrides overrides (applyOverrides overrides items)
  = applyOverrides overrides items.
Proof.
  unfold applyOverrides. rewrite <- list_fmap_compose.
  apply list_fmap_ext. intros _ item _. unfold compose, mergeItem.
  destruct (getProperty overrides (Track.spotify (PlaylistedTrack.track item)))
    as [o|fname|] eqn:Ho.
  - cbn [PlaylistedTrack.track PlaylistedTrack.added_at].
    replace (Track.spotify (applyOverride o (PlaylistedTrack.track item)))
      with (Track.spotify (PlaylistedTrack.track item)) by done.
    by rewrite Ho, applyOverride_idempotent.
  - cbn [PlaylistedTrack.track PlaylistedTrack.added_at Track.spotify].
    by rewrite Ho.
  - by rewrite Ho.
Qed.

Lemma applyOverrides_frame_witness :
  ∃ item,
    [sampleItem] !! 0 = Some item
    ∧ trackId (mergeItem (buildOverrides [artistOverride]) sampleItem) = trackId item.
Proof.
  destruct (proj2 (applyOverrides_frame (buildOverrides [artistOverride]) [sampleItem])
              0 (mergeItem (buildOverrides [artistOverride]) sampleItem))
    as (item & Hitem & Hid & _).
  - reflexivity.
  - exists item. split; [exact Hitem|exact Hid].
Defined.

(** ** The override text box *)

Section HandlerProperties.
Context {JSValue : Type}.
Variable JSON_parse : jsstring → option JSValue.
Variable overrideItems : JSValue → option (list OverrideItem.t).
Variable emptyString : JSValue.

Lemma step_override_cells e (st : AppState JSValue) :
  (∀ input, e ≠ ChangeOverride input) →
  overrideText (step JSON_parse overrideItems e st) = overrideText st
  ∧ overrideJsonErrorMessage (step JSON_parse overrideItems e st)
    = overrideJsonErrorMessage st
  ∧ overrideJsonRef (step JSON_parse overrideItems e st) = overrideJsonRef st.
Proof.
  intros He. destruct e; cbn [step]; try done.
  - by destruct (He input).
  - destruct (getPlaylist _ _ _) as [[st' reqs]|] eqn:Hg; [|done].
    apply getPlaylist_frame in Hg. tauto.
Qed.

(** X14: in every reachable state the message, the text box and the
    stored overrides agree: either nothing was typed yet (empty text, no
    message, the initial value stored), or no message is shown and the
    stored value is the parse of the text in the box, or the message is
    "Invalid JSON!" and the text in the box does not parse. *)
Theorem override_cells_consistent (events : list Event) :
  let st := run JSON_parse overrideItems emptyString events in
  (overrideText st = [] ∧ overrideJsonErrorMessage st = []
   ∧ overrideJsonRef st = Some emptyString)
  ∨ (overrideJsonErrorMessage st = []
     ∧ ∃ v, JSON_parse (overrideText st) = Some v ∧ overrideJsonRef st = Some v)
  ∨ (overrideJsonErrorMessage st = lit "Invalid JSON!"
     ∧ JSON_parse (overrideText st) = None).
Proof.
  cbn zeta. induction events as [|e events IH] using rev_ind.
  - left. done.
  - unfold run in *. rewrite foldl_app. cbn [foldl].
    set (st := foldl _ _ events) in *.
    assert ((∃ input, e = ChangeOverride input) ∨ (∀ input, e ≠ ChangeOverride input))
      as [[input ->]|He] by (destruct e; eauto).
    + cbn [step]. unfold handleOverrideChange.
      destruct (run_overrideJsonRef JSON_parse overrideItems emptyString events) as [v0 Hv0].
      unfold run in Hv0. fold st in Hv0. rewrite Hv0.
      destruct (JSON_parse input) as [v|] eqn:Hparse.
      * right. left. split; [done|]. exists v. done.
      * right. right. done.
    + by destruct (step_override_cells e st He) as (-> & -> & ->).
Qed.

(** X15: text that does not parse has no effect on the next fetch: the
    requests issued and the list displayed are the same as if the text had
    not been typed. *)
Theorem invalid_override_text_same_fetch (st : AppState JSValue)
    (input : jsstring) (responses : list Page.t) :
  JSON_parse input = None →
  (λ r, (playlistItems r.1, r.2))
    <$> getPlaylist overrideItems responses (handleOverrideChange JSON_parse input st)
  = (λ r, (playlistItems r.1, r.2)) <$> getPlaylist overrideItems responses st.
Proof.
  intros Hparse. unfold handleOverrideChange, getPlaylist, readOverrideJson.
  rewrite Hparse.
  destruct st as [u p n c s e [v|] t li rj];
    cbn [overrideJsonRef url playlistRegex_lastIndex setOverrideText
         setOverrideJsonErrorMessage setLastIndex];
    destruct (exec playlistRegex li u) as [[m|] li']; try done;
    destruct (fetchPages _ _ _ _ _) as [[items reqs]|]; try done.
  by destruct (overrideItems v).
Qed.

(** X16: typing in the override box stores the text as typed, valid or
    not, and touches neither the displayed track list nor the URL, the card
    name, the code type or the regular expression's [lastIndex]; overrides
    reach the cards only through the next fetch. *)
Theorem handleOverrideChange_frame (st : AppState JSValue) (input : jsstring) :
  let st' := handleOverrideChange JSON_parse input st in
  overrideText st' = input
  ∧ playlistItems st' = playlistItems st
  ∧ url st' = url st
  ∧ name st' = name st
  ∧ codeType st' = codeType st
  ∧ showAdvancedOptions st' = showAdvancedOptions st
  ∧ playlistRegex_lastIndex st' = playlistRegex_lastIndex st.
Proof.
  unfold handleOverrideChange.
  destruct (overrideJsonRef st); [destruct (JSON_parse input)|]; done.
Qed.
End HandlerProperties.

Lemma invalid_override_text_same_fetch_witness :
  (λ r, (playlistItems r.1, r.2))
    <$> getPlaylist (λ v, Some v) [samplePage2]
          (handleOverrideChange sampleParse (lit "[{") sampleState)
  = (λ r, (playlistItems r.1, r.2)) <$> getPlaylist (λ v, Some v) [samplePage2] sampleState.
Proof.
  apply (invalid_override_text_same_fetch sampleParse (λ v, Some v) sampleState (lit "[{")
           [samplePage2]).
  reflexivity.
Defined.

(** ** arrayChunks in general *)

(** X17: for any positive chunk size arrayChunks cuts the array into
    consecutive pieces: the pieces concatenate back to the array, there are
    ceil(length / size) of them, every piece but the last has exactly
    [chunkSize] elements and the last has between 1 and [chunkSize]; an
    empty array gives no piece at all.  A chunk size of 0 makes it throw. *)
Theorem arrayChunks_partition {A : Type} (array : list A) (chunkSize : nat) :
  (chunkSize = 0 → arrayChunks array chunkSize = None)
  ∧ (0 < chunkSize →
     ∃ chunks,
       arrayChunks array chunkSize = Some chunks
       ∧ concat chunks = array
       ∧ length chunks = ceilDiv (length array) chunkSize
       ∧ (∀ i chunk, chunks !! i = Some chunk → S i < length chunks →
            length chunk = chunkSize)
       ∧ (∀ chunk, last chunks = Some chunk → 0 < length chunk ≤ chunkSize)
       ∧ (array = [] → chunks = [])).
Proof.
  split; [intros ->; reflexivity|]. intros Hc.
  destruct (arrayChunks_spec array chunkSize Hc)
    as (chunks & Hsome & Hlen & Hconcat & Hsizes & Hchunk).
  exists chunks. split_and!; try done.
  - intros i chunk Hi Hnext. rewrite (Hchunk i chunk Hi).
    rewrite Hlen in Hnext. apply (ceilDiv_tight _ chunkSize) in Hnext; [|done].
    rewrite length_take, length_drop. lia.
  - intros chunk Hlast. apply last_Some_elem_of in Hlast.
    rewrite Forall_forall in Hsizes. by apply Hsizes.
  - intros ->. destruct chunks as [|chunk chunks]; [done|].
    apply Forall_cons in Hsizes as [Hpos _].
    cbn in Hconcat. apply app_eq_nil in Hconcat as [-> _]. cbn in Hpos. lia.
Qed.

Lemma arrayChunks_partition_witness :
  ∃ chunks,
    arrayChunks [1; 2; 3; 4; 5; 6; 7] 3 = Some chunks
    ∧ concat chunks = [1; 2; 3; 4; 5; 6; 7]
    ∧ length chunks = 3.
Proof.
  destruct (proj2 (arrayChunks_partition [1; 2; 3; 4; 5; 6; 7] 3))
    as (chunks & Hsome & Hconcat & Hlen & _).
  - lia.
  - exists chunks. split; [exact Hsome|]. split; [exact Hconcat|exact Hlen].
Defined.

(** ** Card contents *)

Section CardProperties.
Variable formatYear : jsstring → jsstring.
Variable name : jsstring.
Variable codeType : jsstring.

(** X18: every card of a front page belongs to an entry of the list and
    shows, in this order, the entry's track name, the year formatted from
    its release date and its artist names joined by a comma and a space,
    followed by the card name when that is not empty and by nothing
    otherwise. *)
Theorem frontCard_content (playlistItems : list PlaylistedTrack.t)
    (pages : list PDFPage) (i : nat) (front : PDFPage) (frontRow : RowView) (card : CardView) :
  Document formatYear name codeType playlistItems = Some pages →
  pages !! (2 * i) = Some front →
  frontRow ∈ rows front →
  card ∈ cards frontRow →
  ∃ item,
    item ∈ playlistItems
    ∧ key card = trackId item
    ∧ flexDirection frontRow = row
    ∧ children card
      = [Text (Track.name (PlaylistedTrack.track item));
         Text (formatYear (Track.release_date (PlaylistedTrack.track item)));
         Text (join (lit ", ") (Artist.name <$> Track.artists (PlaylistedTrack.track item)))]
        ++ (if decide (name = []) then [] else [Text name]).
Proof.
  intros Hdoc Hfront Hrow Hcard.
  destruct (arrayChunks_spec playlistItems 12)
    as (groups & Hgroups & _ & Hconcat & _ & _); [lia|].
  rewrite (Document_Some _ _ _ _ _ Hgroups) in Hdoc.
  apply (inj Some) in Hdoc. subst pages.
  destruct (lookup_concat_pairs
    (λ g, frontPage formatYear name (default [] (arrayChunks g 3)))
    (λ g, backPage codeType (default [] (arrayChunks g 3))) groups i) as [Hf _].
  rewrite Hf in Hfront. clear Hf.
  destruct (groups !! i) as [group|] eqn:Hi; [|done].
  cbn [fmap option_fmap option_map] in Hfront.
  apply (inj Some) in Hfront. subst front.
  destruct (arrayChunks_spec group 3)
    as (rowChunks & Hrows & _ & Hrconcat & _ & _); [lia|].
  rewrite Hrows in Hrow. cbn [default] in Hrow.
  unfold frontPage in Hrow. cbn [rows] in Hrow.
  apply list_elem_of_fmap in Hrow as (rowChunk & -> & HrowChunk).
  cbn [cards] in Hcard.
  apply list_elem_of_fmap in Hcard as (item & -> & Hitem).
  exists item. split_and!; try done.
  - rewrite <- Hconcat. apply (elem_of_concat _ group).
    + rewrite <- Hrconcat. by apply (elem_of_concat _ rowChunk).
    + by eapply list_elem_of_lookup_2.
  - unfold frontCard. cbn [children]. by destruct name.
Qed.

(** X19: what an override puts on the card: after the merge, a non-empty
    override name is the card's title line, a non-empty override date is
    what the year is formatted from, and a non-empty override artist is the
    whole artist line, with no other artist joined to it. *)
Theorem frontCard_shows_override (override : OverrideItem.t) (item : PlaylistedTrack.t) :
  let card :=
    frontCard formatYear name
      (PlaylistedTrack.mk (PlaylistedTrack.added_at item)
         (applyOverride override (PlaylistedTrack.track item))) in
  (∀ s, OverrideItem.name override = Some s → s ≠ [] →
     children card !! 0 = Some (Text s))
  ∧ (∀ s, OverrideItem.date override = Some s → s ≠ [] →
       children card !! 1 = Some (Text (formatYear s)))
  ∧ (∀ s, OverrideItem.artist override = Some s → s ≠ [] →
       children card !! 2 = Some (Text s)).
Proof.
  cbn zeta. unfold frontCard, applyOverride.
  cbn [PlaylistedTrack.track children Track.name Track.release_date Track.artists Track.id].
  split_and!; intros s -> Hs; destruct s as [|c s]; try done.
Qed.
End CardProperties.

Lemma frontCard_content_witness :
  ∃ item,
    item ∈ [sampleItem]
    ∧ children (frontCard sampleFormatYear (lit "Quiz") sampleItem)
      = [Text (Track.name (PlaylistedTrack.track item));
         Text (sampleFormatYear (Track.release_date (PlaylistedTrack.track item)));
         Text (join (lit ", ") (Artist.name <$> Track.artists (PlaylistedTrack.track item)))]
        ++ [Text (lit "Quiz")].
Proof.
  destruct (frontCard_content sampleFormatYear (lit "Quiz") (lit "qr")
              [sampleItem]
              [frontPage sampleFormatYear (lit "Quiz") [[sampleItem]];
               backPage (lit "qr") [[sampleItem]]]
              0
              (frontPage sampleFormatYear (lit "Quiz") [[sampleItem]])
              (mkRow row [frontCard sampleFormatYear (lit "Quiz") sampleItem])
              (frontCard sampleFormatYear (lit "Quiz") sampleItem))
    as (item & Hitem & _ & _ & Hchildren).
  - reflexivity.
  - reflexivity.
  - left.
  - left.
  - exists item. split; [exact Hitem|exact Hchildren].
Defined.

Lemma frontCard_shows_override_witness :
  children
    (frontCard sampleFormatYear []
       (PlaylistedTrack.mk (PlaylistedTrack.added_at sampleItem)
          (applyOverride artistOverride sampleTrack))) !! 2
  = Some (Text (lit "Band")).
Proof.
  apply (proj2 (proj2 (frontCard_shows_override sampleFormatYear [] artistOverride sampleItem))
           (lit "Band")).
  - reflexivity.
  - discriminate.
Defined.

(** ** The start-up script *)

(** X21: when either variable is unset or empty the script stops with
    exit status 1 after printing one error line, which names the client id
    if that is missing and the redirect URI otherwise, and it has run no
    sed: the assets are untouched.  When both are set it prints nothing and
    runs the two substitutions, client id first, each with the variable's
    value spliced into the sed expression. *)
Theorem script_fails_fast {Files : Type} (sed_i : string → Files → nat * Files)
    (env : ReplaceSpotifyVars.Env) (fs : Files) :
  let out := ReplaceSpotifyVars.script Files sed_i env fs in
  let missing v := ReplaceSpotifyVars.isZero v = true in
  ((missing (ReplaceSpotifyVars.SPOTIFY_CLIENT_ID env)
    ∨ missing (ReplaceSpotifyVars.SPOTIFY_REDIRECT_URI env)) →
     ReplaceSpotifyVars.status Files out = 1
     ∧ ReplaceSpotifyVars.files Files out = fs
     ∧ ReplaceSpotifyVars.sedRuns Files out = []
     ∧ ReplaceSpotifyVars.stdout Files out
       = [if ReplaceSpotifyVars.isZero (ReplaceSpotifyVars.SPOTIFY_CLIENT_ID env)
          then "ERROR: SPOTIFY_CLIENT_ID not set"%string
          else "ERROR: SPOTIFY_REDIRECT_URI not set"%string])
  ∧ (∀ id uri,
       ReplaceSpotifyVars.SPOTIFY_CLIENT_ID env = Some id → id ≠ EmptyString →
       ReplaceSpotifyVars.SPOTIFY_REDIRECT_URI env = Some uri → uri ≠ EmptyString →
       ReplaceSpotifyVars.stdout Files out = []
       ∧ ReplaceSpotifyVars.sedRuns Files out
         = [String.append "s,REPLACEME_VITE_SPOTIFY_CLIENT_ID," (String.append id ",");
            String.append "s,REPLACEME_VITE_SPOTIFY_REDIRECT_URI," (String.append uri ",")]
       ∧ ReplaceSpotifyVars.files Files out
         = (sed_i (String.append "s,REPLACEME_VITE_SPOTIFY_REDIRECT_URI," (String.append uri ","))
              (sed_i (String.append "s,REPLACEME_VITE_SPOTIFY_CLIENT_ID," (String.append id ","))
                 fs).2).2).
Proof.
  cbn zeta. unfold ReplaceSpotifyVars.script. split.
  - intros [H | H].
    + by rewrite H.
    + rewrite H.
      by destruct (ReplaceSpotifyVars.isZero (ReplaceSpotifyVars.SPOTIFY_CLIENT_ID env)).
  - intros id uri -> Hid -> Huri.
    destruct id as [|a id]; [done|]. destruct uri as [|b uri]; [done|].
    cbn [ReplaceSpotifyVars.isZero ReplaceSpotifyVars.expand default
         ReplaceSpotifyVars.SPOTIFY_CLIENT_ID ReplaceSpotifyVars.SPOTIFY_REDIRECT_URI].
    unfold Datatypes.id.
    destruct (sed_i _ fs) as [s1 fs1]. cbn [snd].
    by destruct (sed_i _ fs1) as [s2 fs2].
Qed.

Lemma script_fails_fast_witness :
  ReplaceSpotifyVars.status (list string)
    (ReplaceSpotifyVars.script (list string) (λ _ fs, (0, fs))
       (ReplaceSpotifyVars.mkEnv (Some "abc"%string) None) ["index.js"%string])
  = 1
  ∧ ReplaceSpotifyVars.files (list string)
      (ReplaceSpotifyVars.script (list string) (λ _ fs, (0, fs))
         (ReplaceSpotifyVars.mkEnv (Some "abc"%string) None) ["index.js"%string])
    = ["index.js"%string].
Proof.
  destruct (proj1 (script_fails_fast (λ _ (fs : list string), (0, fs))
                     (ReplaceSpotifyVars.mkEnv (Some "abc"%string) None)
                     ["index.js"%string]))
    as (Hstatus & Hfiles & _).
  - right. reflexivity.
  - split; [exact Hstatus|exact Hfiles].
Defined.
